(** * Tag-mapping resolution of navidrome (package [metadata])

    A shallow embedding of the mapping resolver found in the second half of
    [src/core/metrics/insights.go]: the types [mappingsConf], [tagMappings],
    [tagConf], the normalizer [collectTags], the once-only pipeline
    [parseMappings] and its three accessors [mappings], [rolesConf] and
    [artistsConf]; and of the insights collector of the first half
    (package [metrics]): [NewInsights], [buildInfo], [getFSInfo],
    [staticData] and [Collect].

    Conventions of the embedding:
    - a Go [string] is a [string] of bytes; a Go [[]string] is a [slice],
      an [option (list string)] whose [None] is the [nil] slice (the code
      tests [v.Split != nil], so [nil] and the empty non-nil slice differ);
    - a Go [map[model.TagName]tagConf] is a [gmap string tagConf]; ranging
      over it visits its entries once each, in an order the runtime picks;
    - Go's [strings.ToLower] belongs to the standard library: the resolver
      is stated for an arbitrary lower-casing function [ToLower], and a
      property that needs more of it says so in a hypothesis;
    - [log.Error] calls are recorded, in program order, in a list;
    - a panic is an outcome of its own ([Panics]). *)

From Stdlib Require Import ZArith NArith Ascii String.
From stdpp Require Import gmap strings list fin_maps.

Local Open Scope string_scope.
Local Open Scope list_scope.

(** * Strings *)

Module strings.

(** What Go's [strings.ToLower] computes on a string of ASCII bytes (its
    first branch): the bytes ['A'..'Z'] get ['a' - 'A'] added, every other
    byte is kept.  It stands for [strings.ToLower] in the examples only,
    whose documents are ASCII. *)
Definition lowerByte (c : ascii) : ascii :=
  let n := N_of_ascii c in
  if ((65 <=? n) && (n <=? 90))%N then ascii_of_N (n + 32) else c.

Fixpoint ToLowerASCII (s : string) : string :=
  match s with
  | EmptyString => EmptyString
  | String c s' => String (lowerByte c) (ToLowerASCII s')
  end.

End strings.

(** * Package [metrics]: the insights collector

    The first half of [src/core/metrics/insights.go].  Types declared in
    other packages are given the shape the code uses them with; a nested
    struct field [a.B.C] is the record field [B_C]. *)

Module debug.

(** The fields of [debug.BuildInfo] and [debug.BuildSetting] that
    [buildInfo] reads. *)
Record BuildSetting : Type := mkBuildSetting {
  Key : string;
  Value : string
}.

Record BuildInfo : Type := mkBuildInfo {
  GoVersion : string;
  Settings : list BuildSetting
}.

End debug.

Module conf.

(** The fields of [conf.Server] that [staticData] reads. *)
Record configOptions : Type := mkConfigOptions {
  MusicFolder : string;
  DataFolder : string;
  CacheFolder : string;
  Backup_Path : string;
  Backup_Schedule : string;
  Backup_Count : Z;
  LogLevel : string;
  LogFile : string;
  TLSCert : string;
  TLSKey : string;
  UILoginBackgroundURL : string;
  EnableArtworkPrecache : bool;
  EnableCoverAnimation : bool;
  EnableDownloads : bool;
  EnableExternalServices : bool;
  EnableSharing : bool;
  EnableStarRating : bool;
  LastFM_Enabled : bool;
  ListenBrainz_Enabled : bool;
  EnableMediaFileCoverArt : bool;
  Spotify_ID : string;
  Jukebox_Enabled : bool;
  Prometheus_Enabled : bool;
  TranscodingCacheSize : string;
  ImageCacheSize : string;
  ScanSchedule : string;
  SessionTimeout : Z;
  SearchFullString : bool;
  RecentlyAddedByModTime : bool;
  PreferSortTags : bool;
  DevActivityPanel : bool;
  DevAutoLoginUsername : string;
  DevAutoCreateAdminPassword : string
}.

End conf.

Module insights.

(** [insights.FSInfo] and [insights.Data], field by field as [staticData]
    and [Collect] assign them. *)
Record FSInfo : Type := mkFSInfo {
  FSInfo_Type : string
}.

Record BuildData : Type := mkBuildData {
  Build_Settings : gmap string string;
  Build_GoVersion : string
}.

Record OSData : Type := mkOSData {
  OS_Type : string;
  OS_Arch : string;
  OS_NumCPU : Z;
  OS_Version : string;
  OS_Distro : string
}.

(** The four [*FSInfo] pointers; [None] is [nil]. *)
Record FSData : Type := mkFSData {
  FS_Music : option FSInfo;
  FS_Data : option FSInfo;
  FS_Cache : option FSInfo;
  FS_Backup : option FSInfo
}.

Record LibraryData : Type := mkLibraryData {
  Library_Tracks : Z;
  Library_Albums : Z;
  Library_Artists : Z;
  Library_Playlists : Z;
  Library_Shares : Z;
  Library_Radios : Z;
  Library_ActiveUsers : Z
}.

Record ConfigData : Type := mkConfigData {
  Config_LogLevel : string;
  Config_LogFileConfigured : bool;
  Config_TLSConfigured : bool;
  Config_DefaultBackgroundURL : bool;
  Config_EnableArtworkPrecache : bool;
  Config_EnableCoverAnimation : bool;
  Config_EnableDownloads : bool;
  Config_EnableExternalServices : bool;
  Config_EnableSharing : bool;
  Config_EnableStarRating : bool;
  Config_EnableLastFM : bool;
  Config_EnableListenBrainz : bool;
  Config_EnableMediaFileCoverArt : bool;
  Config_EnableSpotify : bool;
  Config_EnableJukebox : bool;
  Config_EnablePrometheus : bool;
  Config_TranscodingCacheSize : string;
  Config_ImageCacheSize : string;
  Config_ScanSchedule : string;
  Config_SessionTimeout : Z;
  Config_SearchFullString : bool;
  Config_RecentlyAddedByModTime : bool;
  Config_PreferSortTags : bool;
  Config_BackupSchedule : string;
  Config_BackupCount : Z;
  Config_DevActivityPanel : bool;
  Config_DevAutoLoginUsername : bool;
  Config_DevAutoCreateAdminPassword : bool
}.

Record Data : Type := mkData {
  InsightsID : string;
  Version : string;
  Uptime : Z;
  Build : BuildData;
  OS : OSData;
  FS : FSData;
  Library : LibraryData;
  Config : ConfigData
}.

(** The zero value of the [Library] struct. *)
Definition zeroLibrary : LibraryData :=
  {| Library_Tracks := 0; Library_Albums := 0; Library_Artists := 0;
     Library_Playlists := 0; Library_Shares := 0; Library_Radios := 0;
     Library_ActiveUsers := 0 |}.

End insights.

Module metrics.

(** [s != ""] *)
Definition nonEmpty (s : string) : bool := negb (String.eqb s "").

(** What the collector reads from outside the shown source: constants of
    package [consts], the build and runtime information, the two
    platform helpers [getOSVersion] and [getFilesystemType], the path
    functions (an error is [None]), the server configuration, and the
    JSON encoder (an error is [None]). *)
Record Runtime : Type := mkRuntime {
  consts_InsightsID : string;
  consts_Version : string;
  consts_DefaultUILoginBackgroundURL : string;
  debug_ReadBuildInfo : option debug.BuildInfo;
  runtime_GOOS : string;
  runtime_GOARCH : string;
  runtime_NumCPU : Z;
  getOSVersion : string * string;
  filepath_Abs : string -> option string;
  filepath_Clean : string -> string;
  getFilesystemType : string -> option string;
  conf_Server : conf.configOptions;
  json_Marshal : insights.Data -> option string
}.

(** The [model.DataStore] interface, as far as the collector uses it:
    [Property(ctx).Get] (an error is [None]), [Property(ctx).Put] (the
    store afterwards, and whether the error is [nil]), and the seven
    counting queries, whose error result the code drops.  The user count
    takes the bound of its filter [last_access_at > bound]. *)
Class DataStore (S : Type) : Type := mkDataStore {
  Property_Get : S -> string -> option string;
  Property_Put : S -> string -> string -> S * bool;
  MediaFile_CountAll : S -> Z;
  Album_CountAll : S -> Z;
  Artist_CountAll : S -> Z;
  Playlist_Count : S -> Z;
  Share_CountAll : S -> Z;
  Radio_Count : S -> Z;
  User_CountAll : S -> Z -> Z
}.

(** One constructor per [log.Trace] call site. *)
Inductive traceEntry : Type :=
| CouldNotGetID
| CouldNotSaveID
| CouldNotMarshal.

(** The package-level state: the variable [insightsID], the cell behind
    [staticData = sync.OnceValue(...)], and the trace log. *)
Record state : Type := mkState {
  insightsID : string;
  staticDataOnce : option insights.Data;
  traces : list traceEntry
}.

Definition stateStart : state :=
  {| insightsID := ""; staticDataOnce := None; traces := [] |}.

(** [NewInsights(ds)], where [newUUID] is what [uuid.NewString()] returns
    if it is called.  The result is the store afterwards (the collector
    holds it) and the new package state. *)
Definition NewInsights {S} `{DataStore S} (R : Runtime) (ds : S)
    (newUUID : string) (st : state) : S * state :=
  let '(id, ds, tr) :=
    match Property_Get ds (consts_InsightsID R) with
    | Some id => (id, ds, traces st)
    | None =>
        let tr := traces st ++ [CouldNotGetID] in
        let id := newUUID in
        let '(ds, ok) := Property_Put ds (consts_InsightsID R) id in
        (id, ds, if ok then tr else tr ++ [CouldNotSaveID])
    end in
  (ds, {| insightsID := id; staticDataOnce := staticDataOnce st; traces := tr |}).

(** The loop of [buildInfo]: settings with an empty value are skipped. *)
Definition addSetting (bInfo : gmap string string) (setting : debug.BuildSetting)
  : gmap string string :=
  if String.eqb (debug.Value setting) "" then bInfo
  else <[debug.Key setting := debug.Value setting]> bInfo.

Definition buildInfo (R : Runtime) : gmap string string * string :=
  let bInfo : gmap string string := ∅ in
  let version := "" in
  match debug_ReadBuildInfo R with
  | Some info => (fold_left addSetting (debug.Settings info) bInfo,
                  debug.GoVersion info)
  | None => (bInfo, version)
  end.

Definition getFSInfo (R : Runtime) (path : string) : option insights.FSInfo :=
  match filepath_Abs R path with
  | None => None
  | Some absPath =>
      let absPath := filepath_Clean R absPath in
      match getFilesystemType R absPath with
      | None => None
      | Some fsType => Some {| insights.FSInfo_Type := fsType |}
      end
  end.

(** The function literal handed to [sync.OnceValue]; it reads the
    variable [insightsID]. *)
Definition staticDataFunc (R : Runtime) (insightsID : string) : insights.Data :=
  let c := conf_Server R in
  {| insights.InsightsID := insightsID;
     insights.Version := consts_Version R;
     insights.Uptime := 0;
     insights.Build :=
       {| insights.Build_Settings := (buildInfo R).1;
          insights.Build_GoVersion := (buildInfo R).2 |};
     insights.OS :=
       {| insights.OS_Type := runtime_GOOS R;
          insights.OS_Arch := runtime_GOARCH R;
          insights.OS_NumCPU := runtime_NumCPU R;
          insights.OS_Version := (getOSVersion R).1;
          insights.OS_Distro := (getOSVersion R).2 |};
     insights.FS :=
       {| insights.FS_Music := getFSInfo R (conf.MusicFolder c);
          insights.FS_Data := getFSInfo R (conf.DataFolder c);
          insights.FS_Cache :=
            if nonEmpty (conf.CacheFolder c)
            then getFSInfo R (conf.CacheFolder c) else None;
          insights.FS_Backup :=
            if nonEmpty (conf.Backup_Path c)
            then getFSInfo R (conf.Backup_Path c) else None |};
     insights.Library := insights.zeroLibrary;
     insights.Config :=
       {| insights.Config_LogLevel := conf.LogLevel c;
          insights.Config_LogFileConfigured := nonEmpty (conf.LogFile c);
          insights.Config_TLSConfigured :=
            nonEmpty (conf.TLSCert c) && nonEmpty (conf.TLSKey c);
          insights.Config_DefaultBackgroundURL :=
            String.eqb (conf.UILoginBackgroundURL c)
                       (consts_DefaultUILoginBackgroundURL R);
          insights.Config_EnableArtworkPrecache := conf.EnableArtworkPrecache c;
          insights.Config_EnableCoverAnimation := conf.EnableCoverAnimation c;
          insights.Config_EnableDownloads := conf.EnableDownloads c;
          insights.Config_EnableExternalServices := conf.EnableExternalServices c;
          insights.Config_EnableSharing := conf.EnableSharing c;
          insights.Config_EnableStarRating := conf.EnableStarRating c;
          insights.Config_EnableLastFM := conf.LastFM_Enabled c;
          insights.Config_EnableListenBrainz := conf.ListenBrainz_Enabled c;
          insights.Config_EnableMediaFileCoverArt := conf.EnableMediaFileCoverArt c;
          insights.Config_EnableSpotify := nonEmpty (conf.Spotify_ID c);
          insights.Config_EnableJukebox := conf.Jukebox_Enabled c;
          insights.Config_EnablePrometheus := conf.Prometheus_Enabled c;
          insights.Config_TranscodingCacheSize := conf.TranscodingCacheSize c;
          insights.Config_ImageCacheSize := conf.ImageCacheSize c;
          insights.Config_ScanSchedule := conf.ScanSchedule c;
          insights.Config_SessionTimeout := conf.SessionTimeout c;
          insights.Config_SearchFullString := conf.SearchFullString c;
          insights.Config_RecentlyAddedByModTime := conf.RecentlyAddedByModTime c;
          insights.Config_PreferSortTags := conf.PreferSortTags c;
          insights.Config_BackupSchedule := conf.Backup_Schedule c;
          insights.Config_BackupCount := conf.Backup_Count c;
          insights.Config_DevActivityPanel := conf.DevActivityPanel c;
          insights.Config_DevAutoLoginUsername :=
            nonEmpty (conf.DevAutoLoginUsername c);
          insights.Config_DevAutoCreateAdminPassword :=
            nonEmpty (conf.DevAutoCreateAdminPassword c) |} |}.

(** A call of [staticData()]: the first one runs the function and fills
    the cell, the others read it.  The caller gets a copy of the struct. *)
Definition staticData (R : Runtime) (st : state) : insights.Data * state :=
  match staticDataOnce st with
  | Some data => (data, st)
  | None =>
      let data := staticDataFunc R (insightsID st) in
      (data, {| insightsID := insightsID st; staticDataOnce := Some data;
                traces := traces st |})
  end.

(** What one call of [Collect] is given by the clock and by the rate
    limiter: [time.Since(consts.ServerStart)] and [time.Now()], in
    nanoseconds, and whether [libraryUpdate.Do] runs its argument. *)
Record collectInput : Type := mkCollectInput {
  sinceServerStart : Z;
  now : Z;
  libraryUpdateRuns : bool
}.

(** [Duration.Milliseconds()]: integer division of the nanoseconds. *)
Definition Milliseconds (d : Z) : Z := (d ÷ 1000000)%Z.

(** [7 * 24 * time.Hour], in nanoseconds. *)
Definition sevenDays : Z := (7 * 24 * 3600000000000)%Z.

(** The function literal handed to [libraryUpdate.Do], acting on the
    [Library] field of the local [data]. *)
Definition libraryCounts {S} `{DataStore S} (ds : S) (now : Z)
  : insights.LibraryData :=
  {| insights.Library_Tracks := MediaFile_CountAll ds;
     insights.Library_Albums := Album_CountAll ds;
     insights.Library_Artists := Artist_CountAll ds;
     insights.Library_Playlists := Playlist_Count ds;
     insights.Library_Shares := Share_CountAll ds;
     insights.Library_Radios := Radio_Count ds;
     insights.Library_ActiveUsers := User_CountAll ds (now - sevenDays)%Z |}.

(** The local variable [data] of [Collect] when it reaches
    [json.Marshal], and the package state at that point. *)
Definition collectedData {S} `{DataStore S} (R : Runtime) (ds : S)
    (inp : collectInput) (st : state) : insights.Data * state :=
  let '(data, st) := staticData R st in
  let uptime := (Milliseconds (sinceServerStart inp) ÷ 1000)%Z in
  let library :=
    if libraryUpdateRuns inp then libraryCounts ds (now inp)
    else insights.Library data in
  ({| insights.InsightsID := insights.InsightsID data;
      insights.Version := insights.Version data;
      insights.Uptime := uptime;
      insights.Build := insights.Build data;
      insights.OS := insights.OS data;
      insights.FS := insights.FS data;
      insights.Library := library;
      insights.Config := insights.Config data |},
   st).

(** [insightsCollector.Collect]. *)
Definition Collect {S} `{DataStore S} (R : Runtime) (ds : S)
    (inp : collectInput) (st : state) : string * state :=
  let '(data, st) := collectedData R ds inp st in
  match json_Marshal R data with
  | Some resp => (resp, st)
  | None =>
      ("", {| insightsID := insightsID st; staticDataOnce := staticDataOnce st;
              traces := traces st ++ [CouldNotMarshal] |})
  end.

End metrics.

(** ** Stores and settings used as examples *)

(** A store of properties kept in a finite map, with no library: [Get]
    fails on a missing key, [Put] always succeeds. *)
#[global] Instance mapStore : metrics.DataStore (gmap string string) :=
  {| metrics.Property_Get := fun ds k => ds !! k;
     metrics.Property_Put := fun ds k v => (<[k := v]> ds, true);
     metrics.MediaFile_CountAll := fun _ => 0%Z;
     metrics.Album_CountAll := fun _ => 0%Z;
     metrics.Artist_CountAll := fun _ => 0%Z;
     metrics.Playlist_Count := fun _ => 0%Z;
     metrics.Share_CountAll := fun _ => 0%Z;
     metrics.Radio_Count := fun _ => 0%Z;
     metrics.User_CountAll := fun _ _ => 0%Z |}.

(** A store that cannot be written and holds seven tracks. *)
Inductive readOnlyStore : Type := ReadOnly.

#[global] Instance readOnlyDataStore : metrics.DataStore readOnlyStore :=
  {| metrics.Property_Get := fun _ _ => None;
     metrics.Property_Put := fun ds _ _ => (ds, false);
     metrics.MediaFile_CountAll := fun _ => 7%Z;
     metrics.Album_CountAll := fun _ => 0%Z;
     metrics.Artist_CountAll := fun _ => 0%Z;
     metrics.Playlist_Count := fun _ => 0%Z;
     metrics.Share_CountAll := fun _ => 0%Z;
     metrics.Radio_Count := fun _ => 0%Z;
     metrics.User_CountAll := fun _ _ => 0%Z |}.

Definition exampleServer : conf.configOptions :=
  {| conf.MusicFolder := "/music"; conf.DataFolder := "/data";
     conf.CacheFolder := ""; conf.Backup_Path := "";
     conf.Backup_Schedule := ""; conf.Backup_Count := 0;
     conf.LogLevel := "info"; conf.LogFile := "/var/log/navidrome.log";
     conf.TLSCert := "/etc/cert.pem"; conf.TLSKey := "/etc/key.pem";
     conf.UILoginBackgroundURL := "/backgrounds";
     conf.EnableArtworkPrecache := true; conf.EnableCoverAnimation := true;
     conf.EnableDownloads := true; conf.EnableExternalServices := true;
     conf.EnableSharing := false; conf.EnableStarRating := true;
     conf.LastFM_Enabled := true; conf.ListenBrainz_Enabled := true;
     conf.EnableMediaFileCoverArt := true; conf.Spotify_ID := "spotify-id";
     conf.Jukebox_Enabled := false; conf.Prometheus_Enabled := false;
     conf.TranscodingCacheSize := "100MB"; conf.ImageCacheSize := "100MB";
     conf.ScanSchedule := "@every 1m"; conf.SessionTimeout := 86400000000000;
     conf.SearchFullString := false; conf.RecentlyAddedByModTime := false;
     conf.PreferSortTags := false; conf.DevActivityPanel := true;
     conf.DevAutoLoginUsername := "admin";
     conf.DevAutoCreateAdminPassword := "hunter2" |}.

Definition exampleBuild : debug.BuildInfo :=
  {| debug.GoVersion := "go1.23";
     debug.Settings :=
       [ {| debug.Key := "vcs"; debug.Value := "git" |};
         {| debug.Key := "CGO_ENABLED"; debug.Value := "1" |};
         {| debug.Key := "vcs"; debug.Value := "" |};
         {| debug.Key := "-tags"; debug.Value := "" |} ] |}.

Definition exampleRuntime : metrics.Runtime :=
  {| metrics.consts_InsightsID := "InsightsID";
     metrics.consts_Version := "0.54.0";
     metrics.consts_DefaultUILoginBackgroundURL := "/backgrounds";
     metrics.debug_ReadBuildInfo := Some exampleBuild;
     metrics.runtime_GOOS := "linux";
     metrics.runtime_GOARCH := "amd64";
     metrics.runtime_NumCPU := 4;
     metrics.getOSVersion := ("12", "debian");
     metrics.filepath_Abs := fun p => Some p;
     metrics.filepath_Clean := fun p => p;
     metrics.getFilesystemType := fun _ => Some "ext4";
     metrics.conf_Server := exampleServer;
     metrics.json_Marshal := fun _ => Some "{}" |}.

(** ** Notions used in the statements about [metrics] *)

(** A placeholder that is empty exactly when [keep] is false. *)
Definition mask (keep : bool) : string := if keep then "*" else "".

(** The configuration with the contents of the log file name, of the TLS
    certificate and key names, of the Spotify ID, of the auto-login user
    name and of the auto-created admin password blotted out: what is kept
    of each is whether it is set and, of the TLS pair, whether both
    are. *)
Definition redact (c : conf.configOptions) : conf.configOptions :=
  {| conf.MusicFolder := conf.MusicFolder c;
     conf.DataFolder := conf.DataFolder c;
     conf.CacheFolder := conf.CacheFolder c;
     conf.Backup_Path := conf.Backup_Path c;
     conf.Backup_Schedule := conf.Backup_Schedule c;
     conf.Backup_Count := conf.Backup_Count c;
     conf.LogLevel := conf.LogLevel c;
     conf.LogFile := mask (metrics.nonEmpty (conf.LogFile c));
     conf.TLSCert :=
       mask (metrics.nonEmpty (conf.TLSCert c) && metrics.nonEmpty (conf.TLSKey c));
     conf.TLSKey :=
       mask (metrics.nonEmpty (conf.TLSCert c) && metrics.nonEmpty (conf.TLSKey c));
     conf.UILoginBackgroundURL := conf.UILoginBackgroundURL c;
     conf.EnableArtworkPrecache := conf.EnableArtworkPrecache c;
     conf.EnableCoverAnimation := conf.EnableCoverAnimation c;
     conf.EnableDownloads := conf.EnableDownloads c;
     conf.EnableExternalServices := conf.EnableExternalServices c;
     conf.EnableSharing := conf.EnableSharing c;
     conf.EnableStarRating := conf.EnableStarRating c;
     conf.LastFM_Enabled := conf.LastFM_Enabled c;
     conf.ListenBrainz_Enabled := conf.ListenBrainz_Enabled c;
     conf.EnableMediaFileCoverArt := conf.EnableMediaFileCoverArt c;
     conf.Spotify_ID := mask (metrics.nonEmpty (conf.Spotify_ID c));
     conf.Jukebox_Enabled := conf.Jukebox_Enabled c;
     conf.Prometheus_Enabled := conf.Prometheus_Enabled c;
     conf.TranscodingCacheSize := conf.TranscodingCacheSize c;
     conf.ImageCacheSize := conf.ImageCacheSize c;
     conf.ScanSchedule := conf.ScanSchedule c;
     conf.SessionTimeout := conf.SessionTimeout c;
     conf.SearchFullString := conf.SearchFullString c;
     conf.RecentlyAddedByModTime := conf.RecentlyAddedByModTime c;
     conf.PreferSortTags := conf.PreferSortTags c;
     conf.DevActivityPanel := conf.DevActivityPanel c;
     conf.DevAutoLoginUsername :=
       mask (metrics.nonEmpty (conf.DevAutoLoginUsername c));
     conf.DevAutoCreateAdminPassword :=
       mask (metrics.nonEmpty (conf.DevAutoCreateAdminPassword c)) |}.

(** The runtime [R] with the server configuration [c]. *)
Definition withServer (R : metrics.Runtime) (c : conf.configOptions)
  : metrics.Runtime :=
  {| metrics.consts_InsightsID := metrics.consts_InsightsID R;
     metrics.consts_Version := metrics.consts_Version R;
     metrics.consts_DefaultUILoginBackgroundURL :=
       metrics.consts_DefaultUILoginBackgroundURL R;
     metrics.debug_ReadBuildInfo := metrics.debug_ReadBuildInfo R;
     metrics.runtime_GOOS := metrics.runtime_GOOS R;
     metrics.runtime_GOARCH := metrics.runtime_GOARCH R;
     metrics.runtime_NumCPU := metrics.runtime_NumCPU R;
     metrics.getOSVersion := metrics.getOSVersion R;
     metrics.filepath_Abs := metrics.filepath_Abs R;
     metrics.filepath_Clean := metrics.filepath_Clean R;
     metrics.getFilesystemType := metrics.getFilesystemType R;
     metrics.conf_Server := c;
     metrics.json_Marshal := metrics.json_Marshal R |}.

(** The package states a process can be in: any number of [NewInsights]
    and [Collect] calls, on any stores, after [st]. *)
Inductive evolves (R : metrics.Runtime) (st : metrics.state)
  : metrics.state → Prop :=
| evolves_refl : evolves R st st
| evolves_NewInsights S (DS : metrics.DataStore S) (ds : S) newUUID st' :
    evolves R st st' →
    evolves R st (metrics.NewInsights R ds newUUID st').2
| evolves_Collect S (DS : metrics.DataStore S) (ds : S) inp st' :
    evolves R st st' →
    evolves R st (metrics.Collect R ds inp st').2.

(** The fields of the collected data that [Collect] does not assign. *)
Definition staticPart (d : insights.Data)
  : string * string * insights.BuildData * insights.OSData
    * insights.FSData * insights.ConfigData :=
  (insights.InsightsID d, insights.Version d, insights.Build d,
   insights.OS d, insights.FS d, insights.Config d).

(** [Put] followed by [Get] of the same key returns what was put, when
    [Put] reported no error. *)
Definition putThenGet (S : Type) `{metrics.DataStore S} : Prop :=
  ∀ (ds ds' : S) k v,
    metrics.Property_Put ds k v = (ds', true) →
    metrics.Property_Get ds' k = Some v.

(** * Package [metadata]: the tag mappings

    ** Data model *)

(** [[]string]: [None] is [nil]. *)
Definition slice : Type := option (list string).

Definition elems (s : slice) : list string := default [] s.

Definition isNil (s : slice) : bool :=
  match s with None => true | Some _ => false end.

(** [append(s, x)]: the result is never [nil]. *)
Definition append (s : slice) (x : string) : slice := Some (elems s ++ [x]).

(** [type TagType string] with its four named constants; the zero value
    [""] is what the specification calls "none". *)
Definition TagType : Type := string.
Definition TagTypeInteger : TagType := "integer".
Definition TagTypeFloat : TagType := "float".
Definition TagTypeDate : TagType := "date".
Definition TagTypeUUID : TagType := "uuid".

(** [model.TagName] is a string type. *)
Definition TagName : Type := string.

(** [type tagConf struct]; the field [Type] is spelled [Type_] here. *)
Record tagConf : Type := mkTagConf {
  Aliases : slice;
  Type_ : TagType;
  MaxLength : Z;
  Split : slice
}.

(** [type tagMappings map[model.TagName]tagConf] *)
Abbreviation tagMappings := (gmap string tagConf).

(** [type mappingsConf struct] *)
Record mappingsConf : Type := mkMappingsConf {
  Main : tagMappings;
  Additional : tagMappings;
  Roles : tagConf;
  Artists : tagConf
}.

(** Zero values, as [var mappings mappingsConf] yields them. *)
Definition zeroTagConf : tagConf :=
  {| Aliases := None; Type_ := ""; MaxLength := 0; Split := None |}.

Definition zeroMappingsConf : mappingsConf :=
  {| Main := ∅; Additional := ∅; Roles := zeroTagConf; Artists := zeroTagConf |}.

#[global] Instance tagConf_eq_dec : EqDecision tagConf.
Proof. solve_decision. Defined.

(** ** Logging *)

(** One constructor per [log.Error] call site. *)
Inductive logEntry : Type :=
| ErrorOpening (err : string)
| ErrorDecoding (err : string)
| ErrorSplitType (tag : TagName) (split : slice) (type : TagType).

(** ** The collaborators of the pipeline *)

(** The bytes of an opened resource. *)
Definition File : Type := string.

(** What [resources.FS().Open(name)] hands back: a file, or [nil] and an
    error. *)
Inductive openResult : Type :=
| Opened (f : File)
| OpenFailed (err : string).

(** What [yaml.NewDecoder(mappingsFile).Decode(&mappings)] does to the
    zero-valued [mappings]: it returns, leaving [filled] in the struct,
    with an error or [nil]; or it panics. *)
Inductive decodeResult : Type :=
| Decoded (filled : mappingsConf) (err : option string)
| DecodePanics.

(** The two collaborators of [parseMappings] that live outside the shown
    source.  [yaml_Decode] is called on the file [Open] returned, which is
    [nil] ([None]) when [Open] failed. *)
Record Env : Type := mkEnv {
  FS_Open : string -> openResult;
  yaml_Decode : option File -> decodeResult
}.

Inductive outcome (A : Type) : Type :=
| Returns (a : A)
| Panics.
Arguments Returns {A} a.
Arguments Panics {A}.

(** ** The normalizer *)

Section Resolver.

(** Go's [strings.ToLower], a function of the standard library.  Nothing
    is assumed of it here. *)
Variable ToLower : string -> string.

(** Modelled from the spec: [model.TagName.ToLower] is declared outside the
    shown source; the specification says entries are "keyed by the
    lower-cased tag name", so it is [ToLower] on the underlying
    string. *)
Definition TagName_ToLower (t : TagName) : TagName := ToLower t.

(** The inner loop of [collectTags]:
    [var aliases []string; for _, val := range v.Aliases { aliases = append(aliases, strings.ToLower(val)) }] *)
Definition lowerAliases (a : slice) : slice :=
  fold_left (fun aliases val => append aliases (ToLower val)) (elems a) None.

(** The guard [v.Split != nil && v.Type != ""]. *)
Definition splitTypeConflict (v : tagConf) : bool :=
  negb (isNil (Split v)) && negb (String.eqb (Type_ v) "").

(** The value stored for a raw entry [v]: lower-cased aliases, [Type] and
    [MaxLength] copied, [Split] copied unless the guard fired. *)
Definition storedConf (v : tagConf) : tagConf :=
  {| Aliases := lowerAliases (Aliases v);
     Type_ := Type_ v;
     MaxLength := MaxLength v;
     Split := if splitTypeConflict v then None else Split v |}.

(** One iteration of the outer loop of [collectTags], on the entry [(k, v)];
    the state is the target map and the log. *)
Definition collectTag (st : tagMappings * list logEntry) (kv : TagName * tagConf)
  : tagMappings * list logEntry :=
  let '(normalized, lg) := st in
  let '(k, v) := kv in
  let aliases := lowerAliases (Aliases v) in
  let '(v, lg) :=
    if splitTypeConflict v
    then ({| Aliases := Aliases v; Type_ := Type_ v; MaxLength := MaxLength v;
             Split := None |},
          lg ++ [ErrorSplitType k (Split v) (Type_ v)])
    else (v, lg) in
  (<[TagName_ToLower k :=
       {| Aliases := aliases; Type_ := Type_ v; MaxLength := MaxLength v;
          Split := Split v |}]> normalized,
   lg).

(** [collectTags(tagMappings, normalized)] when the runtime ranges over
    [tagMappings] in the order [order]. *)
Definition collectTags (order : list (TagName * tagConf))
    (st : tagMappings * list logEntry) : tagMappings * list logEntry :=
  fold_left collectTag order st.

(** The orders in which [for k, v := range m] may visit the map [m]: every
    entry once, in any order. *)
Definition rangeOrder (m : tagMappings) (order : list (TagName * tagConf)) : Prop :=
  order ≡ₚ map_to_list m.

(** ** The pipeline *)

(** The function literal handed to [sync.OnceValues], run with the log [lg]
    and with the two [range] loops visiting [orderMain] and
    [orderAdditional]. *)
Definition parseMappingsFunc (E : Env)
    (orderMain orderAdditional : list (TagName * tagConf)) (lg : list logEntry)
  : outcome (tagMappings * mappingsConf) * list logEntry :=
  let '(mappingsFile, lg) :=
    match FS_Open E "mappings.yaml" with
    | Opened f => (Some f, lg)
    | OpenFailed err => (None, lg ++ [ErrorOpening err])
    end in
  match yaml_Decode E mappingsFile with
  | DecodePanics => (Panics, lg)
  | Decoded mappings err =>
      let lg := match err with
                | Some e => lg ++ [ErrorDecoding e]
                | None => lg
                end in
      let normalized : tagMappings := ∅ in
      let '(normalized, lg) := collectTags orderMain (normalized, lg) in
      let '(normalized, lg) := collectTags orderAdditional (normalized, lg) in
      (Returns (normalized, mappings), lg)
  end.

(** The file the decoder is given. *)
Definition mappingsFile (E : Env) : option File :=
  match FS_Open E "mappings.yaml" with
  | Opened f => Some f
  | OpenFailed _ => None
  end.

(** One execution of the function literal: the runtime picks an order for
    each of the two maps the decoder filled. *)
Definition parseMappingsRuns (E : Env) (lg : list logEntry)
    (out : outcome (tagMappings * mappingsConf)) (lg' : list logEntry) : Prop :=
  ∃ orderMain orderAdditional,
    (∀ c err, yaml_Decode E (mappingsFile E) = Decoded c err →
              rangeOrder (Main c) orderMain ∧ rangeOrder (Additional c) orderAdditional) ∧
    parseMappingsFunc E orderMain orderAdditional lg = (out, lg').

(** ** [sync.OnceValues] and the accessors *)

(** The cell behind [var parseMappings = sync.OnceValues(...)]: not yet
    run, holding the two results, or holding a panic that every call
    re-raises. *)
Inductive onceValues : Type :=
| NotRun
| Valid (r1 : tagMappings) (r2 : mappingsConf)
| Panicked.

Record process : Type := mkProcess {
  parseMappingsOnce : onceValues;
  errorLog : list logEntry
}.

Definition processStart : process :=
  {| parseMappingsOnce := NotRun; errorLog := [] |}.

Definition settle (out : outcome (tagMappings * mappingsConf)) : onceValues :=
  match out with
  | Returns (r1, r2) => Valid r1 r2
  | Panics => Panicked
  end.

(** A call of [parseMappings()]. *)
Inductive parseMappings (E : Env)
  : process → outcome (tagMappings * mappingsConf) → process → Prop :=
| parseMappings_first p out lg' :
    parseMappingsOnce p = NotRun →
    parseMappingsRuns E (errorLog p) out lg' →
    parseMappings E p out {| parseMappingsOnce := settle out; errorLog := lg' |}
| parseMappings_valid p r1 r2 :
    parseMappingsOnce p = Valid r1 r2 →
    parseMappings E p (Returns (r1, r2)) p
| parseMappings_panicked p :
    parseMappingsOnce p = Panicked →
    parseMappings E p Panics p.

(** The three accessors, and what each keeps of the pair. *)
Inductive accessor : Type := mappings | rolesConf | artistsConf.

Inductive value : Type :=
| MappingsValue (m : tagMappings)
| ConfValue (c : tagConf).

Definition project (a : accessor) (r : tagMappings * mappingsConf) : value :=
  match a with
  | mappings => MappingsValue (fst r)
  | rolesConf => ConfValue (Roles (snd r))
  | artistsConf => ConfValue (Artists (snd r))
  end.

Definition projectOutcome (a : accessor)
    (out : outcome (tagMappings * mappingsConf)) : outcome value :=
  match out with
  | Returns r => Returns (project a r)
  | Panics => Panics
  end.

(** A call of the accessor [a]. *)
Definition call (E : Env) (a : accessor) (p : process) (r : outcome value)
    (p' : process) : Prop :=
  ∃ out, parseMappings E p out p' ∧ r = projectOutcome a out.

(** A sequence of accessor calls with their results. *)
Inductive execution (E : Env)
  : process → list (accessor * outcome value) → process → Prop :=
| execution_nil p : execution E p [] p
| execution_cons p a r p' tr p'' :
    call E a p r p' →
    execution E p' tr p'' →
    execution E p ((a, r) :: tr) p''.

(** ** Notions used in the statements *)

(** A string is lower-case when lower-casing leaves it alone. *)
Definition isLower (s : string) : Prop := ToLower s = s.

(** The map a [collectTags] loop leaves behind does not depend on the log. *)
Definition insertAll (order : list (TagName * tagConf)) (normalized : tagMappings)
  : tagMappings :=
  fold_left (fun n kv => <[TagName_ToLower kv.1 := storedConf kv.2]> n) order normalized.

(** The map the two loops build from an empty target. *)
Definition resolved (orderMain orderAdditional : list (TagName * tagConf))
  : tagMappings :=
  insertAll orderAdditional (insertAll orderMain ∅).

(** The diagnostics one [collectTags] loop logs. *)
Definition conflictLog (order : list (TagName * tagConf)) : list logEntry :=
  flat_map (fun kv => if splitTypeConflict kv.2
                      then [ErrorSplitType kv.1 (Split kv.2) (Type_ kv.2)]
                      else []) order.

Definition openLog (E : Env) : list logEntry :=
  match FS_Open E "mappings.yaml" with
  | Opened _ => []
  | OpenFailed err => [ErrorOpening err]
  end.

Definition decodeLog (err : option string) : list logEntry :=
  match err with
  | Some e => [ErrorDecoding e]
  | None => []
  end.

(** The run in which each tier is visited in the order [map_to_list]
    lists it. *)
Definition canonicalRun (E : Env)
  : outcome (tagMappings * mappingsConf) * list logEntry :=
  match yaml_Decode E (mappingsFile E) with
  | Decoded c _ =>
      parseMappingsFunc E (map_to_list (Main c)) (map_to_list (Additional c)) []
  | DecodePanics => parseMappingsFunc E [] [] []
  end.

(** The raw entries of a document, tier by tier. *)
Definition rawEntry (conf : mappingsConf) (k : TagName) (v : tagConf) : Prop :=
  Main conf !! k = Some v ∨ Additional conf !! k = Some v.

(** The keys of a tier have pairwise distinct lower-cased forms. *)
Definition lowerDistinct (m : tagMappings) : Prop :=
  ∀ k1 k2, is_Some (m !! k1) → is_Some (m !! k2) →
           TagName_ToLower k1 = TagName_ToLower k2 → k1 = k2.

(** The walk that visits each tier in the order [map_to_list] lists it. *)
Definition normalize (conf : mappingsConf) : tagMappings :=
  resolved (map_to_list (Main conf)) (map_to_list (Additional conf)).

(** Two descriptors agree field by field, a nil slice counting as empty. *)
Definition sameConf (w w' : tagConf) : Prop :=
  elems (Aliases w) = elems (Aliases w') ∧ Type_ w = Type_ w' ∧
  MaxLength w = MaxLength w' ∧ elems (Split w) = elems (Split w').

(** A sub-config is normalized: lower-case aliases, and no non-empty split
    beside a type other than none. *)
Definition normalizedConf (c : tagConf) : Prop :=
  Forall isLower (elems (Aliases c)) ∧
  ¬ (elems (Split c) ≠ [] ∧ Type_ c ≠ "").

(** Every sequence of accessor calls, answered from the canonical run. *)
Definition canonicalTrace (E : Env) (accs : list accessor)
  : list (accessor * outcome value) :=
  (fun a => (a, projectOutcome a (canonicalRun E).1)) <$> accs.

Definition canonicalFinal (E : Env) : process :=
  {| parseMappingsOnce := settle (canonicalRun E).1;
     errorLog := (canonicalRun E).2 |}.

(** The document cannot be opened, or cannot be decoded. *)
Definition loadFails (E : Env) : Prop :=
  (∃ err, FS_Open E "mappings.yaml" = OpenFailed err) ∨
  (∃ c err, yaml_Decode E (mappingsFile E) = Decoded c (Some err)).

Definition emptyValue (a : accessor) : value :=
  match a with
  | mappings => MappingsValue ∅
  | rolesConf | artistsConf => ConfValue zeroTagConf
  end.

(** Every call returns the empty value and one error in all is logged. *)
Definition degradesToEmpty (E : Env) : Prop :=
  ∀ tr p', execution E processStart tr p' → tr ≠ [] →
    (∀ a r, (a, r) ∈ tr → r = Returns (emptyValue a)) ∧
    length (errorLog p') = 1.

(** A raw entry declares both a non-empty split and a type other than
    none. *)
Definition declaresBoth (v : tagConf) : Prop :=
  elems (Split v) ≠ [] ∧ Type_ v ≠ "".

(** No other raw entry of the document is written under the lower-cased
    key of [(k, v)]. *)
Definition soleWriter (conf : mappingsConf) (k : TagName) (v : tagConf) : Prop :=
  ∀ k1 v1, rawEntry conf k1 v1 →
           TagName_ToLower k1 = TagName_ToLower k → k1 = k ∧ v1 = v.

(** Two distinct keys of one tier with the same lower-cased form. *)
Definition collides (m : tagMappings) (k1 : TagName) (v1 : tagConf)
    (k2 : TagName) (v2 : tagConf) : Prop :=
  m !! k1 = Some v1 ∧ m !! k2 = Some v2 ∧ k1 ≠ k2 ∧
  TagName_ToLower k1 = TagName_ToLower k2.

(** The order that visits the entry [(k, v)] of [m] last. *)
Definition visitLast (m : tagMappings) (k : TagName) (v : tagConf)
  : list (TagName * tagConf) :=
  map_to_list (delete k m) ++ [(k, v)].

(** The document whose main tier is [m] and which holds nothing else. *)
Definition mainOnly (m : tagMappings) : mappingsConf :=
  {| Main := m; Additional := ∅; Roles := zeroTagConf; Artists := zeroTagConf |}.

(** The raw entry [v] declares a non-nil split beside a non-empty type. *)
Definition conflicting (kv : TagName * tagConf) : Prop :=
  splitTypeConflict kv.2 = true.

(** ** Documents and environments used as examples *)

Definition exampleDoc : mappingsConf :=
  {| Main :=
       <["year" := {| Aliases := Some ["date"]; Type_ := TagTypeInteger;
                      MaxLength := 0; Split := None |}]>
       (<["genre" := {| Aliases := Some ["genres"]; Type_ := "";
                        MaxLength := 0; Split := Some ["/"; ";"] |}]> ∅);
     Additional :=
       <["year" := {| Aliases := Some ["date"; "releaseyear"]; Type_ := "";
                      MaxLength := 4; Split := None |}]> ∅;
     Roles := {| Aliases := Some ["ROLE"]; Type_ := ""; MaxLength := 0;
                 Split := None |};
     Artists := zeroTagConf |}.

(** An environment in which the document opens and decodes to [doc]. *)
Definition envOf (doc : mappingsConf) : Env :=
  {| FS_Open := fun _ => Opened "";
     yaml_Decode := fun _ => Decoded doc None |}.

Definition exampleYear : tagConf :=
  {| Aliases := Some ["date"; "releaseyear"]; Type_ := ""; MaxLength := 4;
     Split := None |}.

Definition exampleGenre : tagConf :=
  {| Aliases := Some ["genres"]; Type_ := ""; MaxLength := 0;
     Split := Some ["/"; ";"] |}.

Definition exampleRoles : tagConf :=
  {| Aliases := Some ["ROLE"]; Type_ := ""; MaxLength := 0; Split := None |}.

Definition exampleResolved : tagMappings :=
  <["year" := exampleYear]> (<["genre" := exampleGenre]> ∅).

Definition exampleTrace : list (accessor * outcome value) :=
  [(mappings, Returns (MappingsValue exampleResolved));
   (rolesConf, Returns (ConfValue exampleRoles));
   (mappings, Returns (MappingsValue exampleResolved))].

Definition exampleFinal : process :=
  {| parseMappingsOnce := Valid exampleResolved exampleDoc; errorLog := [] |}.

Definition claimedYear : tagConf :=
  {| Aliases := Some ["date"; "releaseyear"]; Type_ := TagTypeInteger;
     MaxLength := 4; Split := None |}.

Definition claimedRoles : tagConf :=
  {| Aliases := Some ["role"]; Type_ := ""; MaxLength := 0; Split := None |}.

Definition shoutedConf : tagConf :=
  {| Aliases := Some ["ROLE"]; Type_ := TagTypeInteger; MaxLength := 0;
     Split := Some ["/"] |}.

Definition shoutedDoc : mappingsConf :=
  {| Main := ∅; Additional := ∅; Roles := shoutedConf; Artists := shoutedConf |}.

Definition shoutedTrace : list (accessor * outcome value) :=
  [(rolesConf, Returns (ConfValue shoutedConf));
   (artistsConf, Returns (ConfValue shoutedConf))].

Definition shoutedFinal : process :=
  {| parseMappingsOnce := Valid ∅ shoutedDoc; errorLog := [] |}.

(** The resource is missing and the decoder, handed the nil file, panics
    (what a [Read] on a nil [io.Reader] does). *)
Definition envMissingPanics : Env :=
  {| FS_Open := fun _ => OpenFailed "file does not exist";
     yaml_Decode := fun _ => DecodePanics |}.

(** The resource is missing and the decoder, handed the nil file, returns
    an error of its own. *)
Definition envMissingError : Env :=
  {| FS_Open := fun _ => OpenFailed "file does not exist";
     yaml_Decode := fun _ => Decoded zeroMappingsConf (Some "EOF") |}.

(** The resource opens; one field of one entry has the wrong type.  The
    decoder reports the error after filling in what it could decode. *)
Definition partialDoc : mappingsConf :=
  {| Main := <["year" := {| Aliases := Some ["date"]; Type_ := "";
                            MaxLength := 0; Split := None |}]> ∅;
     Additional := ∅; Roles := zeroTagConf; Artists := zeroTagConf |}.

Definition envTypeError : Env :=
  {| FS_Open := fun _ => Opened "main: {year: {aliases: [date], maxLength: abc}}";
     yaml_Decode := fun _ =>
       Decoded partialDoc (Some "cannot unmarshal !!str `abc` into int") |}.

(** The resource opens; the document is not well-formed and the decoder
    leaves the struct untouched. *)
Definition envSyntaxError : Env :=
  {| FS_Open := fun _ => Opened "main: [";
     yaml_Decode := fun _ =>
       Decoded zeroMappingsConf (Some "did not find expected node content") |}.

(** A document with mixed-case keys and aliases, one entry declaring a
    split beside the type date, one beside a type outside the four named
    constants. *)
Definition rawDate : tagConf :=
  {| Aliases := Some ["DATE"; "Year"]; Type_ := TagTypeDate; MaxLength := 0;
     Split := Some ["-"] |}.

Definition rawMood : tagConf :=
  {| Aliases := Some ["MOOD"]; Type_ := "banana"; MaxLength := 0;
     Split := Some [","] |}.

Definition conflictDoc : mappingsConf :=
  {| Main := <["Date" := rawDate]> ∅;
     Additional := <["Mood" := rawMood]> ∅;
     Roles := zeroTagConf; Artists := zeroTagConf |}.

Definition resolvedDate : tagConf :=
  {| Aliases := Some ["date"; "year"]; Type_ := TagTypeDate; MaxLength := 0;
     Split := None |}.

Definition resolvedMood : tagConf :=
  {| Aliases := Some ["mood"]; Type_ := "banana"; MaxLength := 0;
     Split := None |}.

(** A document whose main tier holds the keys "A" and "a" with the same
    descriptor. *)
Definition twinDoc : mappingsConf :=
  {| Main := <["A" := zeroTagConf]> (<["a" := zeroTagConf]> ∅);
     Additional := ∅; Roles := zeroTagConf; Artists := zeroTagConf |}.

(** A document whose additional tier holds "Year" and "year" with
    different descriptors. *)
Definition upperYear : tagConf :=
  {| Aliases := None; Type_ := ""; MaxLength := 4; Split := None |}.

Definition lowerYear : tagConf :=
  {| Aliases := None; Type_ := ""; MaxLength := 5; Split := None |}.

Definition clashDoc : mappingsConf :=
  {| Main := ∅;
     Additional := <["Year" := upperYear]> (<["year" := lowerYear]> ∅);
     Roles := zeroTagConf; Artists := zeroTagConf |}.

(** * Properties of the resolver

    They hold for every lower-casing function. *)

(** ** The alias loop *)

Lemma elems_append_loop (l : list string) (acc : slice) :
  elems (fold_left (fun aliases val => append aliases (ToLower val)) l acc)
  = elems acc ++ (ToLower <$> l).
Proof.
  revert acc. induction l as [|x l IH]; intros acc; simpl.
  - by rewrite app_nil_r.
  - rewrite IH. unfold append at 1. simpl. by rewrite <- app_assoc.
Qed.

Lemma elems_lowerAliases (a : slice) :
  elems (lowerAliases a) = ToLower <$> elems a.
Proof. unfold lowerAliases. by rewrite elems_append_loop. Qed.

Lemma lowerAliases_nil (a : slice) : elems a = [] → lowerAliases a = None.
Proof. unfold lowerAliases. by intros ->. Qed.

(** ** One entry, one loop *)

Lemma splitTypeConflict_true (v : tagConf) :
  splitTypeConflict v = true ↔ Split v ≠ None ∧ Type_ v ≠ "".
Proof.
  unfold splitTypeConflict. rewrite andb_true_iff, !negb_true_iff.
  rewrite String.eqb_neq. destruct (Split v); simpl.
  - split; [intros [_ Ht]; by split|by intros [_ Ht]].
  - split; [by intros [? _]|by intros [? _]].
Qed.

Lemma collectTag_stored (normalized : tagMappings) lg k v :
  collectTag (normalized, lg) (k, v)
  = (<[TagName_ToLower k := storedConf v]> normalized,
     lg ++ (if splitTypeConflict v then [ErrorSplitType k (Split v) (Type_ v)] else [])).
Proof.
  unfold collectTag, storedConf.
  destruct (splitTypeConflict v); simpl; [done|]. by rewrite app_nil_r.
Qed.

Lemma collectTags_cons kv order (st : tagMappings * list logEntry) :
  collectTags (kv :: order) st = collectTags order (collectTag st kv).
Proof. reflexivity. Qed.

Lemma collectTags_fst order (normalized : tagMappings) lg :
  (collectTags order (normalized, lg)).1 = insertAll order normalized.
Proof.
  revert normalized lg. induction order as [|[k v] order IH]; intros n lg; [done|].
  rewrite collectTags_cons, collectTag_stored. apply IH.
Qed.

Lemma insertAll_snoc order kv (n : tagMappings) :
  insertAll (order ++ [kv]) n
  = <[TagName_ToLower kv.1 := storedConf kv.2]> (insertAll order n).
Proof. unfold insertAll. by rewrite fold_left_app. Qed.

Lemma insertAll_lookup_other order (n : tagMappings) k' :
  (∀ kv, kv ∈ order → TagName_ToLower kv.1 ≠ k') →
  insertAll order n !! k' = n !! k'.
Proof.
  revert n. induction order as [|kv order IH]; intros n Hne; [done|].
  simpl. rewrite IH.
  - apply lookup_insert_ne, Hne. left.
  - intros kv' Hin. apply Hne. by right.
Qed.

Lemma insertAll_lookup_Some order (n : tagMappings) k' w :
  insertAll order n !! k' = Some w →
  (∃ k v, (k, v) ∈ order ∧ TagName_ToLower k = k' ∧ w = storedConf v)
  ∨ (n !! k' = Some w ∧ ∀ kv, kv ∈ order → TagName_ToLower kv.1 ≠ k').
Proof.
  revert n. induction order as [|[k v] order IH]; intros n Hw.
  - right. split; [done|]. intros kv Hin. by apply elem_of_nil in Hin.
  - simpl in Hw. apply IH in Hw as [(k0 & v0 & Hin & Hk & Hv)|[Hw Hno]].
    + left. exists k0, v0. split; [by right|done].
    + destruct (decide (TagName_ToLower k = k')) as [Heq|Hne].
      * simpl in Hw. rewrite Heq, lookup_insert_eq in Hw. injection Hw as <-.
        left. exists k, v. split; [left|done].
      * right. rewrite lookup_insert_ne in Hw by done. split; [done|].
        intros kv Hin. apply elem_of_cons in Hin as [->|Hin]; [done|by apply Hno].
Qed.

Lemma insertAll_is_Some order (n : tagMappings) k v :
  (k, v) ∈ order → is_Some (insertAll order n !! TagName_ToLower k).
Proof.
  revert n k v. induction order as [|kv order IH]; intros n k v Hin.
  - by apply elem_of_nil in Hin.
  - apply elem_of_cons in Hin as [<-|Hin]; [|by apply IH with (v := v)].
    simpl.
    destruct (decide (TagName_ToLower k ∈ (TagName_ToLower ∘ fst) <$> order))
      as [Hmem|Hnot].
    + apply list_elem_of_fmap in Hmem as ([k1 v1] & Hk & Hin1).
      simpl in Hk. rewrite Hk. by apply IH with (v := v1).
    + rewrite insertAll_lookup_other.
      * rewrite lookup_insert_eq. by eexists.
      * intros kv Hkv Heq. apply Hnot, list_elem_of_fmap. by exists kv.
Qed.

Lemma insertAll_lookup_NoDup order (n : tagMappings) k v :
  NoDup ((TagName_ToLower ∘ fst) <$> order) →
  (k, v) ∈ order →
  insertAll order n !! TagName_ToLower k = Some (storedConf v).
Proof.
  revert n. induction order as [|kv order IH]; intros n Hnd Hin.
  - by apply elem_of_nil in Hin.
  - rewrite fmap_cons in Hnd. apply NoDup_cons in Hnd as [Hnot Hnd].
    apply elem_of_cons in Hin as [<-|Hin]; [|by apply IH].
    simpl. rewrite insertAll_lookup_other; [apply lookup_insert_eq|].
    intros kv Hkv Heq. apply Hnot, list_elem_of_fmap. by exists kv.
Qed.

Lemma insertAll_perm order1 order2 (n : tagMappings) :
  NoDup ((TagName_ToLower ∘ fst) <$> order1) →
  order1 ≡ₚ order2 →
  insertAll order1 n = insertAll order2 n.
Proof.
  intros Hnd Hperm. apply map_eq. intros k'.
  assert (Hnd2 : NoDup ((TagName_ToLower ∘ fst) <$> order2)) by by rewrite <- Hperm.
  destruct (decide (k' ∈ (TagName_ToLower ∘ fst) <$> order1)) as [Hmem|Hnot].
  - apply list_elem_of_fmap in Hmem as ([k v] & Hk & Hin).
    simpl in Hk. subst k'.
    transitivity (Some (storedConf v)).
    + by apply insertAll_lookup_NoDup.
    + symmetry. apply insertAll_lookup_NoDup; [done|by rewrite <- Hperm].
  - rewrite !insertAll_lookup_other; [done| |].
    + intros kv Hkv Heq. apply Hnot, list_elem_of_fmap. exists kv.
      split; [done|by rewrite Hperm].
    + intros kv Hkv Heq. apply Hnot, list_elem_of_fmap. by exists kv.
Qed.

(** ** The pipeline *)

Lemma collectTags_snd order (normalized : tagMappings) lg :
  (collectTags order (normalized, lg)).2 = lg ++ conflictLog order.
Proof.
  revert normalized lg. induction order as [|[k v] order IH]; intros n lg.
  - simpl. by rewrite app_nil_r.
  - rewrite collectTags_cons, collectTag_stored, IH. simpl.
    by rewrite <- app_assoc.
Qed.

Lemma collectTags_pair order (normalized : tagMappings) lg :
  collectTags order (normalized, lg)
  = (insertAll order normalized, lg ++ conflictLog order).
Proof.
  rewrite <- collectTags_fst with (lg := lg), <- collectTags_snd with (normalized := normalized).
  by destruct (collectTags order (normalized, lg)).
Qed.

Lemma parseMappingsFunc_spec E orderMain orderAdditional lg :
  parseMappingsFunc E orderMain orderAdditional lg
  = match yaml_Decode E (mappingsFile E) with
    | DecodePanics => (Panics, lg ++ openLog E)
    | Decoded c err =>
        (Returns (resolved orderMain orderAdditional, c),
         lg ++ openLog E ++ decodeLog err
            ++ conflictLog orderMain ++ conflictLog orderAdditional)
    end.
Proof.
  unfold parseMappingsFunc, mappingsFile, openLog, resolved.
  destruct (FS_Open E "mappings.yaml") as [f|e];
    (destruct (yaml_Decode E _) as [c err|]; [|by rewrite ?app_nil_r]);
    rewrite !collectTags_pair; destruct err; simpl;
    by rewrite <- ?app_assoc, ?app_nil_r.
Qed.

(** A run that returns has decoded a struct and walked its two tiers. *)
Lemma parseMappingsRuns_Returns E lg normalized conf lg' :
  parseMappingsRuns E lg (Returns (normalized, conf)) lg' →
  ∃ err orderMain orderAdditional,
    yaml_Decode E (mappingsFile E) = Decoded conf err ∧
    rangeOrder (Main conf) orderMain ∧
    rangeOrder (Additional conf) orderAdditional ∧
    normalized = resolved orderMain orderAdditional ∧
    lg' = lg ++ openLog E ++ decodeLog err
             ++ conflictLog orderMain ++ conflictLog orderAdditional.
Proof.
  intros (om & oa & Hord & Hrun). rewrite parseMappingsFunc_spec in Hrun.
  destruct (yaml_Decode E (mappingsFile E)) as [c err|] eqn:Hdec; [|done].
  destruct (Hord c err eq_refl) as [Hm Ha].
  inversion Hrun; subst. by exists err, om, oa.
Qed.

(** Every environment admits a run: the pipeline always comes to an end. *)
Lemma canonicalRun_runs E :
  parseMappingsRuns E [] (canonicalRun E).1 (canonicalRun E).2.
Proof.
  unfold canonicalRun.
  destruct (yaml_Decode E (mappingsFile E)) as [c err|] eqn:Hdec.
  - exists (map_to_list (Main c)), (map_to_list (Additional c)).
    split; [|apply surjective_pairing].
    intros c' err' Heq. rewrite Hdec in Heq. simplify_eq.
    split; by unfold rangeOrder.
  - exists [], []. split; [|apply surjective_pairing].
    intros c' err' Heq. by rewrite Hdec in Heq.
Qed.

(** ** The once-only cell *)

Lemma settle_inj out1 out2 : settle out1 = settle out2 → out1 = out2.
Proof. destruct out1 as [[]|], out2 as [[]|]; simpl; congruence. Qed.

Lemma settle_run out : settle out ≠ NotRun.
Proof. by destruct out as [[]|]. Qed.

Lemma parseMappings_after E p out p' :
  parseMappings E p out p' → parseMappingsOnce p' = settle out.
Proof. by destruct 1. Qed.

Lemma parseMappings_cached E p out out' p' :
  parseMappingsOnce p = settle out →
  parseMappings E p out' p' → out' = out ∧ p' = p.
Proof.
  intros Hc Hcall. destruct Hcall as [p out' lg' Hfresh _|p r1 r2 Hv|p Hp].
  - rewrite Hfresh in Hc. symmetry in Hc. by apply settle_run in Hc.
  - split; [|done]. apply settle_inj. by rewrite <- Hc.
  - split; [|done]. apply settle_inj. by rewrite <- Hc.
Qed.

Lemma execution_cached E p out tr p' :
  parseMappingsOnce p = settle out →
  execution E p tr p' →
  p' = p ∧ ∀ a r, (a, r) ∈ tr → r = projectOutcome a out.
Proof.
  intros Hc Hex. induction Hex as [p|p a r p1 tr p2 (out' & Hcall & ->) Hex IH].
  - split; [done|]. intros a r Hin. by apply elem_of_nil in Hin.
  - destruct (parseMappings_cached _ _ _ _ _ Hc Hcall) as [-> ->].
    destruct (IH Hc) as [-> Hall]. split; [done|].
    intros a' r' Hin. apply elem_of_cons in Hin as [[= -> ->]|Hin]; [done|].
    by apply Hall.
Qed.

(** From a fresh process, the first call runs the pipeline once; every
    call of the sequence, the first included, answers from that one run. *)
Lemma execution_fresh E p tr p' :
  parseMappingsOnce p = NotRun →
  execution E p tr p' →
  tr ≠ [] →
  ∃ out lg',
    parseMappingsRuns E (errorLog p) out lg' ∧
    p' = {| parseMappingsOnce := settle out; errorLog := lg' |} ∧
    ∀ a r, (a, r) ∈ tr → r = projectOutcome a out.
Proof.
  intros Hfresh Hex Hne.
  destruct Hex as [p|p a r p1 tr p2 (out & Hcall & ->) Hex]; [done|].
  destruct Hcall as [p out lg' _ Hrun|p r1 r2 Hv|p Hp]; [|congruence..].
  exists out, lg'. split; [done|].
  destruct (execution_cached E (mkProcess (settle out) lg') out tr p2 eq_refl Hex)
    as [-> Hall].
  split; [done|].
  intros a' r' Hin. apply elem_of_cons in Hin as [[= -> ->]|Hin]; [done|].
  by apply Hall.
Qed.

(** Once the cell is settled, any sequence of calls answers from it. *)
Lemma execution_settled E out lg' (accs : list accessor) :
  execution E {| parseMappingsOnce := settle out; errorLog := lg' |}
    ((fun a => (a, projectOutcome a out)) <$> accs)
    {| parseMappingsOnce := settle out; errorLog := lg' |}.
Proof.
  induction accs as [|a accs IH]; [constructor|].
  rewrite fmap_cons. econstructor; [|exact IH].
  exists out. split; [|done].
  destruct out as [[r1 r2]|]; by constructor.
Qed.

(** Every sequence of accessor calls can be executed, answering from any
    one run of the pipeline. *)
Lemma execution_of_run E out lg' (accs : list accessor) :
  parseMappingsRuns E [] out lg' →
  execution E processStart
    ((fun a => (a, projectOutcome a out)) <$> accs)
    (match accs with
     | [] => processStart
     | _ => {| parseMappingsOnce := settle out; errorLog := lg' |}
     end).
Proof.
  intros Hrun. destruct accs as [|a accs]; [constructor|].
  rewrite fmap_cons. econstructor; [|apply execution_settled].
  exists out. split; [|done]. by apply (parseMappings_first E processStart).
Qed.

(** ** From executions to the normalizer *)

(** What an accessor returns is its share of one walk over the decoded
    tiers. *)
Lemma execution_returns E tr p' a v :
  execution E processStart tr p' →
  (a, Returns v) ∈ tr →
  ∃ conf err orderMain orderAdditional,
    yaml_Decode E (mappingsFile E) = Decoded conf err ∧
    rangeOrder (Main conf) orderMain ∧
    rangeOrder (Additional conf) orderAdditional ∧
    v = project a (resolved orderMain orderAdditional, conf).
Proof.
  intros Hex Hin.
  destruct (execution_fresh E processStart tr p' eq_refl Hex)
    as (out & lg' & Hrun & _ & Hall).
  { intros ->. by apply elem_of_nil in Hin. }
  apply Hall in Hin. destruct out as [[n conf]|]; [|done].
  simpl in Hin. injection Hin as ->.
  apply parseMappingsRuns_Returns in Hrun
    as (err & om & oa & Hdec & Hm & Ha & -> & _).
  by exists conf, err, om, oa.
Qed.

Lemma execution_mappings E tr p' m :
  execution E processStart tr p' →
  (mappings, Returns (MappingsValue m)) ∈ tr →
  ∃ conf err orderMain orderAdditional,
    yaml_Decode E (mappingsFile E) = Decoded conf err ∧
    rangeOrder (Main conf) orderMain ∧
    rangeOrder (Additional conf) orderAdditional ∧
    m = resolved orderMain orderAdditional.
Proof.
  intros Hex Hin.
  destruct (execution_returns E tr p' _ _ Hex Hin)
    as (conf & err & om & oa & Hdec & Hm & Ha & [= ->]).
  by exists conf, err, om, oa.
Qed.

Lemma rangeOrder_elem_of (m : tagMappings) order k v :
  rangeOrder m order → (k, v) ∈ order ↔ m !! k = Some v.
Proof. intros Hperm. rewrite Hperm. apply elem_of_map_to_list. Qed.

(** Every resolved entry is the stored form of a raw entry whose key
    lower-cases to the resolved key. *)
Lemma resolved_from_raw conf orderMain orderAdditional k' w :
  rangeOrder (Main conf) orderMain →
  rangeOrder (Additional conf) orderAdditional →
  resolved orderMain orderAdditional !! k' = Some w →
  ∃ k v, rawEntry conf k v ∧ TagName_ToLower k = k' ∧ w = storedConf v.
Proof.
  intros Hm Ha Hw. unfold resolved in Hw.
  apply insertAll_lookup_Some in Hw as [(k & v & Hin & Hk & Hv)|[Hw _]].
  { exists k, v. split; [right; by apply (rangeOrder_elem_of _ orderAdditional)|done]. }
  apply insertAll_lookup_Some in Hw as [(k & v & Hin & Hk & Hv)|[Hw _]].
  { exists k, v. split; [left; by apply (rangeOrder_elem_of _ orderMain)|done]. }
  by rewrite lookup_empty in Hw.
Qed.

(** Every raw entry leaves its lower-cased key in the resolved map. *)
Lemma resolved_has_key conf orderMain orderAdditional k v :
  rangeOrder (Main conf) orderMain →
  rangeOrder (Additional conf) orderAdditional →
  rawEntry conf k v →
  is_Some (resolved orderMain orderAdditional !! TagName_ToLower k).
Proof.
  intros Hm Ha [Hk|Hk]; unfold resolved.
  - apply (rangeOrder_elem_of _ orderMain) in Hk; [|done].
    destruct (insertAll_is_Some orderMain ∅ k v Hk) as [w Hw].
    destruct (decide (TagName_ToLower k ∈ (TagName_ToLower ∘ fst) <$> orderAdditional))
      as [Hmem|Hnot].
    + apply list_elem_of_fmap in Hmem as ([k1 v1] & Heq & Hin1). simpl in Heq.
      rewrite Heq. by apply insertAll_is_Some with (v := v1).
    + rewrite insertAll_lookup_other; [by exists w|].
      intros kv Hkv Heq. apply Hnot, list_elem_of_fmap. by exists kv.
  - apply (rangeOrder_elem_of _ orderAdditional) in Hk; [|done].
    by apply insertAll_is_Some with (v := v).
Qed.

(** ** Order independence *)

Lemma lowerDistinct_NoDup (m : tagMappings) :
  lowerDistinct m → NoDup ((TagName_ToLower ∘ fst) <$> map_to_list m).
Proof.
  intros Hd. apply NoDup_fmap_2_strong; [|apply NoDup_map_to_list].
  intros [k1 v1] [k2 v2] H1 H2 Heq. simpl in Heq.
  apply elem_of_map_to_list in H1, H2.
  assert (k1 = k2) as -> by (apply Hd; [by eexists..|done]).
  congruence.
Qed.

Lemma resolved_normalize conf orderMain orderAdditional :
  NoDup ((TagName_ToLower ∘ fst) <$> map_to_list (Main conf)) →
  NoDup ((TagName_ToLower ∘ fst) <$> map_to_list (Additional conf)) →
  rangeOrder (Main conf) orderMain →
  rangeOrder (Additional conf) orderAdditional →
  resolved orderMain orderAdditional = normalize conf.
Proof.
  unfold rangeOrder, normalize, resolved. intros Hm Ha Pm Pa.
  rewrite (insertAll_perm orderMain (map_to_list (Main conf))); [|by rewrite Pm|done].
  apply insertAll_perm; [by rewrite Pa|done].
Qed.

(** What any sequence of calls returns in an environment whose document
    decodes, without error, to [doc]. *)
Lemma execution_envOf doc tr p' a r :
  NoDup ((TagName_ToLower ∘ fst) <$> map_to_list (Main doc)) →
  NoDup ((TagName_ToLower ∘ fst) <$> map_to_list (Additional doc)) →
  execution (envOf doc) processStart tr p' →
  (a, r) ∈ tr →
  r = Returns (project a (normalize doc, doc)).
Proof.
  intros Hm Ha Hex Hin.
  destruct (execution_fresh _ processStart tr p' eq_refl Hex)
    as (out & lg' & Hrun & _ & Hall).
  { intros ->. by apply elem_of_nil in Hin. }
  rewrite (Hall a r Hin). destruct Hrun as (om & oa & Hord & Hrun).
  rewrite parseMappingsFunc_spec in Hrun. simpl in Hrun, Hord.
  destruct (Hord doc None eq_refl) as [Pm Pa].
  injection Hrun as <- _. simpl.
  by rewrite (resolved_normalize doc om oa).
Qed.

Lemma NoDup_by_compute {A} `{EqDecision A} (l : list A) :
  bool_decide (NoDup l) = true → NoDup l.
Proof. apply bool_decide_eq_true_1. Qed.

(** C2 (as amended): [rolesConf()] and [artistsConf()] return the roles and
    artists entries exactly as the decoder left them in the struct: no
    alias is lower-cased, and split and type are both kept as declared. *)
Theorem subconfs_returned_as_decoded E tr p' a c :
  execution E processStart tr p' →
  a ≠ mappings →
  (a, Returns (ConfValue c)) ∈ tr →
  ∃ conf err,
    yaml_Decode E (mappingsFile E) = Decoded conf err ∧
    c = match a with rolesConf => Roles conf | _ => Artists conf end.
Proof.
  intros Hex Ha Hin.
  destruct (execution_returns E tr p' _ _ Hex Hin)
    as (conf & err & om & oa & Hdec & _ & _ & Hv).
  exists conf, err. split; [done|].
  destruct a; [done|by injection Hv..].
Qed.

(** ** Failure of the loader or of the decoder *)

Lemma canonical_execution E a accs :
  execution E processStart (canonicalTrace E (a :: accs)) (canonicalFinal E).
Proof.
  apply (execution_of_run E (canonicalRun E).1 (canonicalRun E).2 (a :: accs)).
  apply canonicalRun_runs.
Qed.

Lemma rangeOrder_empty order : rangeOrder ∅ order → order = [].
Proof.
  unfold rangeOrder. rewrite map_to_list_empty. apply Permutation_nil_r.
Qed.

(** C3 (as amended): when the document opens but the decoder returns an
    error, no accessor call panics, the decode error is logged once for
    the whole sequence of calls, followed only by the split/type
    diagnostics of the entries the decoder did fill in, and every call
    answers from one walk over whatever the decoder left in the struct.
    When the decoder left the struct at its zero value, the mapping is
    empty, the roles and artists configs are zero values, and the decode
    error is the only error logged. *)
Theorem decode_failure_degrades E f c err tr p' :
  FS_Open E "mappings.yaml" = Opened f →
  yaml_Decode E (Some f) = Decoded c (Some err) →
  execution E processStart tr p' →
  tr ≠ [] →
  (∃ orderMain orderAdditional,
     rangeOrder (Main c) orderMain ∧
     rangeOrder (Additional c) orderAdditional ∧
     (∀ a r, (a, r) ∈ tr →
        r = Returns (project a (resolved orderMain orderAdditional, c))) ∧
     errorLog p'
     = ErrorDecoding err :: conflictLog orderMain ++ conflictLog orderAdditional)
  ∧ (c = zeroMappingsConf →
     (∀ a r, (a, r) ∈ tr → r = Returns (emptyValue a)) ∧
     errorLog p' = [ErrorDecoding err]).
Proof.
  intros Hopen Hdec Hex Hne.
  destruct (execution_fresh E processStart tr p' eq_refl Hex Hne)
    as (out & lg' & (om & oa & Hord & Hrun) & -> & Hall).
  assert (Hfile : mappingsFile E = Some f) by (unfold mappingsFile; by rewrite Hopen).
  rewrite parseMappingsFunc_spec in Hrun. rewrite Hfile in Hord, Hrun.
  rewrite Hdec in Hrun. destruct (Hord c (Some err) Hdec) as [Pm Pa].
  unfold openLog in Hrun. rewrite Hopen in Hrun. simpl in Hrun.
  injection Hrun as <- <-.
  assert (Hgen : ∀ a r, (a, r) ∈ tr →
            r = Returns (project a (resolved om oa, c))).
  { intros a r Hin. by rewrite (Hall a r Hin). }
  split.
  - by exists om, oa.
  - intros ->. simpl in Pm, Pa.
    apply rangeOrder_empty in Pm as ->. apply rangeOrder_empty in Pa as ->.
    split; [|done]. intros a r Hin. rewrite (Hgen a r Hin). by destruct a.
Qed.

Lemma canonicalRun_envOf doc :
  (canonicalRun (envOf doc)).1 = Returns (normalize doc, doc).
Proof. unfold canonicalRun. simpl. by rewrite parseMappingsFunc_spec. Qed.

Lemma canonicalTrace_envOf doc accs :
  canonicalTrace (envOf doc) accs
  = (fun a => (a, Returns (project a (normalize doc, doc)))) <$> accs.
Proof. unfold canonicalTrace. by rewrite canonicalRun_envOf. Qed.

(** The sequence "call [mappings()] once" on a document that decodes. *)
Lemma mappings_once doc :
  execution (envOf doc) processStart
    [(mappings, Returns (MappingsValue (normalize doc)))]
    (canonicalFinal (envOf doc)).
Proof.
  pose proof (canonical_execution (envOf doc) mappings []) as Hex.
  by rewrite canonicalTrace_envOf in Hex.
Qed.

Lemma execution_decoded E tr p' m conf err :
  execution E processStart tr p' →
  (mappings, Returns (MappingsValue m)) ∈ tr →
  yaml_Decode E (mappingsFile E) = Decoded conf err →
  ∃ orderMain orderAdditional,
    rangeOrder (Main conf) orderMain ∧
    rangeOrder (Additional conf) orderAdditional ∧
    m = resolved orderMain orderAdditional.
Proof.
  intros Hex Hin Hdec.
  destruct (execution_mappings E tr p' m Hex Hin)
    as (conf' & err' & om & oa & Hdec' & Hm & Ha & ->).
  rewrite Hdec in Hdec'. injection Hdec' as <- <-. by exists om, oa.
Qed.

(** C4 (for every lower-casing function): when a tag key, compared after
    lower-casing, is present in both
    tiers, the resolved entry for it is the stored form of an entry of the
    additional tier and of nothing else: its maxLength is that entry's, and
    no field of the main tier's entry survives.  When only one key of the
    additional tier lower-cases to it, that is the entry. *)
Theorem additional_replaces_main E tr p' m conf err kM vM kA vA :
  execution E processStart tr p' →
  (mappings, Returns (MappingsValue m)) ∈ tr →
  yaml_Decode E (mappingsFile E) = Decoded conf err →
  Main conf !! kM = Some vM →
  Additional conf !! kA = Some vA →
  TagName_ToLower kM = TagName_ToLower kA →
  (∃ kA' vA',
     Additional conf !! kA' = Some vA' ∧
     TagName_ToLower kA' = TagName_ToLower kA ∧
     m !! TagName_ToLower kA = Some (storedConf vA') ∧
     MaxLength <$> m !! TagName_ToLower kA = Some (MaxLength vA'))
  ∧ ((∀ k, is_Some (Additional conf !! k) →
           TagName_ToLower k = TagName_ToLower kA → k = kA) →
     m !! TagName_ToLower kA = Some (storedConf vA) ∧
     MaxLength <$> m !! TagName_ToLower kA = Some (MaxLength vA)).
Proof.
  intros Hex Hin Hdec _ HA _.
  destruct (execution_decoded E tr p' m conf err Hex Hin Hdec)
    as (om & oa & Pm & Pa & ->).
  assert (HinA : (kA, vA) ∈ oa) by by apply (rangeOrder_elem_of (Additional conf)).
  destruct (insertAll_is_Some oa (insertAll om ∅) kA vA HinA) as [w Hw].
  assert (Hfrom : ∃ k v, (k, v) ∈ oa ∧ TagName_ToLower k = TagName_ToLower kA ∧
                         w = storedConf v).
  { apply insertAll_lookup_Some in Hw as [Hfrom|[_ Hno]]; [done|].
    by destruct (Hno (kA, vA) HinA). }
  destruct Hfrom as (k & v & Hkv & Hk & ->).
  apply (rangeOrder_elem_of (Additional conf)) in Hkv; [|done].
  unfold resolved. split.
  - exists k, v. rewrite Hw. by repeat split.
  - intros Huniq. assert (k = kA) as -> by (apply Huniq; [by eexists|done]).
    assert (v = vA) as -> by congruence. rewrite Hw. by split.
Qed.

Lemma mappings_once_elem doc :
  (mappings, Returns (MappingsValue (normalize doc)))
  ∈ [(mappings, Returns (MappingsValue (normalize doc)))].
Proof. left. Qed.

Lemma declaresBoth_conflict v : declaresBoth v → splitTypeConflict v = true.
Proof.
  intros [Hs Ht]. apply splitTypeConflict_true. split; [|done].
  intros Hnil. by rewrite Hnil in Hs.
Qed.

Lemma storedConf_Split_conflict v :
  Split v ≠ None → Type_ v ≠ "" → Split (storedConf v) = None.
Proof.
  intros Hs Ht. simpl.
  by rewrite (proj2 (splitTypeConflict_true v) (conj Hs Ht)).
Qed.

Lemma storedConf_no_cooccur v : ¬ declaresBoth (storedConf v).
Proof.
  intros [Hs Ht]. simpl in Hs, Ht.
  destruct (splitTypeConflict v) eqn:Hc; [done|].
  apply Hs. destruct (Split v) as [l|] eqn:Hsp; [|done].
  assert (splitTypeConflict v = true); [|congruence].
  apply splitTypeConflict_true. by rewrite Hsp.
Qed.

Lemma resolved_sole_writer conf orderMain orderAdditional k v :
  rangeOrder (Main conf) orderMain →
  rangeOrder (Additional conf) orderAdditional →
  rawEntry conf k v → soleWriter conf k v →
  resolved orderMain orderAdditional !! TagName_ToLower k = Some (storedConf v).
Proof.
  intros Pm Pa Hraw Hsole.
  destruct (resolved_has_key conf orderMain orderAdditional k v Pm Pa Hraw)
    as [w Hw].
  destruct (resolved_from_raw conf _ _ _ _ Pm Pa Hw) as (k1 & v1 & Hr1 & Hk1 & ->).
  destruct (Hsole k1 v1 Hr1 Hk1) as [-> ->]. done.
Qed.

(** C6: in the map [mappings()] returns no entry has a non-empty split
    beside a type other than none.  Every entry of it is the stored form
    of a raw entry, with that entry's type, and with an empty split when
    the raw entry declared both; every raw entry, one declaring both
    included, leaves its lower-cased key in the map; and a raw entry that
    is alone in writing its key is resolved to its own stored form. *)
Theorem split_and_type_never_cooccur E tr p' m conf err :
  execution E processStart tr p' →
  (mappings, Returns (MappingsValue m)) ∈ tr →
  yaml_Decode E (mappingsFile E) = Decoded conf err →
  (∀ k w, m !! k = Some w → ¬ declaresBoth w) ∧
  (∀ k w, m !! k = Some w →
     ∃ k0 v0, rawEntry conf k0 v0 ∧ TagName_ToLower k0 = k ∧
              Type_ w = Type_ v0 ∧ MaxLength w = MaxLength v0 ∧
              (declaresBoth v0 → Split w = None)) ∧
  (∀ k0 v0, rawEntry conf k0 v0 → is_Some (m !! TagName_ToLower k0)) ∧
  (∀ k0 v0, rawEntry conf k0 v0 → soleWriter conf k0 v0 → declaresBoth v0 →
     ∃ w, m !! TagName_ToLower k0 = Some w ∧
          Type_ w = Type_ v0 ∧ Split w = None).
Proof.
  intros Hex Hin Hdec.
  destruct (execution_decoded E tr p' m conf err Hex Hin Hdec)
    as (om & oa & Pm & Pa & ->).
  split; [|split; [|split]].
  - intros k w Hw.
    destruct (resolved_from_raw conf om oa k w Pm Pa Hw) as (k0 & v0 & _ & _ & ->).
    apply storedConf_no_cooccur.
  - intros k w Hw.
    destruct (resolved_from_raw conf om oa k w Pm Pa Hw) as (k0 & v0 & Hr & Hk & ->).
    exists k0, v0. repeat split; [done..|].
    intros Hboth. simpl. by rewrite (declaresBoth_conflict v0 Hboth).
  - intros k0 v0 Hr. by apply (resolved_has_key conf om oa k0 v0).
  - intros k0 v0 Hr Hsole Hboth. exists (storedConf v0).
    split; [by apply (resolved_sole_writer conf)|]. split; [done|].
    simpl. by rewrite (declaresBoth_conflict v0 Hboth).
Qed.

(** C9: the type of an entry is never checked against the named constants.
    Every entry of the map [mappings()] returns carries the type string of
    the raw entry it was made from, whatever that string is; its split is
    nil as soon as that string is not empty, and is the raw split
    otherwise.  A raw entry that is alone in writing its key is resolved
    with its own type.  In the loop body, any non-empty type beside a
    non-nil split logs the diagnostic and stores a nil split. *)
Theorem type_never_validated E tr p' m conf err :
  execution E processStart tr p' →
  (mappings, Returns (MappingsValue m)) ∈ tr →
  yaml_Decode E (mappingsFile E) = Decoded conf err →
  (∀ k w, m !! k = Some w →
     ∃ k0 v0, rawEntry conf k0 v0 ∧ TagName_ToLower k0 = k ∧
              Type_ w = Type_ v0 ∧
              (Type_ v0 ≠ "" → Split w = None) ∧
              (Type_ v0 = "" → Split w = Split v0)) ∧
  (∀ k0 v0, rawEntry conf k0 v0 → soleWriter conf k0 v0 →
     ∃ w, m !! TagName_ToLower k0 = Some w ∧ Type_ w = Type_ v0 ∧
          (Type_ v0 ≠ "" → Split v0 ≠ None → Split w = None)) ∧
  (∀ (normalized : tagMappings) lg k v,
     Type_ v ≠ "" → Split v ≠ None →
     collectTag (normalized, lg) (k, v)
     = (<[TagName_ToLower k :=
            {| Aliases := lowerAliases (Aliases v); Type_ := Type_ v;
               MaxLength := MaxLength v; Split := None |}]> normalized,
        lg ++ [ErrorSplitType k (Split v) (Type_ v)])).
Proof.
  intros Hex Hin Hdec.
  destruct (execution_decoded E tr p' m conf err Hex Hin Hdec)
    as (om & oa & Pm & Pa & ->).
  split; [|split].
  - intros k w Hw.
    destruct (resolved_from_raw conf om oa k w Pm Pa Hw) as (k0 & v0 & Hr & Hk & ->).
    exists k0, v0. repeat split; [done..| |].
    + intros Ht. simpl. destruct (Split v0) as [l|] eqn:Hs.
      * rewrite (proj2 (splitTypeConflict_true v0)); [done|]. by rewrite Hs.
      * by destruct (splitTypeConflict v0).
    + intros Ht. simpl. unfold splitTypeConflict. rewrite Ht. simpl.
      by rewrite andb_false_r.
  - intros k0 v0 Hr Hsole. exists (storedConf v0).
    split; [by apply (resolved_sole_writer conf)|]. split; [done|].
    intros Ht Hs. by apply storedConf_Split_conflict.
  - intros n lg k v Ht Hs. rewrite collectTag_stored. unfold storedConf.
    by rewrite (proj2 (splitTypeConflict_true v) (conj Hs Ht)).
Qed.

(** ** Idempotence of the accessors *)

(** C7: in any sequence of accessor calls made from process start, two
    calls of the same accessor return equal results, wherever they stand
    in the sequence and whatever other accessors are called in between;
    and once the first call has returned, no later call changes the
    process state, cached pair and log included. *)
Theorem accessors_idempotent E tr1 p1 tr2 p2 a r1 r2 :
  execution E processStart tr1 p1 →
  tr1 ≠ [] →
  execution E p1 tr2 p2 →
  (a, r1) ∈ tr1 ++ tr2 →
  (a, r2) ∈ tr1 ++ tr2 →
  r1 = r2 ∧ p2 = p1.
Proof.
  intros Hex1 Hne Hex2 Hin1 Hin2.
  destruct (execution_fresh E processStart tr1 p1 eq_refl Hex1 Hne)
    as (out & lg' & _ & -> & Hall1).
  destruct (execution_cached E (mkProcess (settle out) lg') out tr2 p2 eq_refl Hex2)
    as [-> Hall2].
  assert (Hall : ∀ r, (a, r) ∈ tr1 ++ tr2 → r = projectOutcome a out).
  { intros r Hin. apply elem_of_app in Hin as [Hin|Hin]; [by apply Hall1|by apply Hall2]. }
  split; [|done]. by rewrite (Hall r1 Hin1), (Hall r2 Hin2).
Qed.

(** ** Dependence on the iteration order *)

(** A run of the pipeline on the decoded document, for any two orders. *)
Lemma parseMappingsRuns_orders E lg conf err orderMain orderAdditional :
  yaml_Decode E (mappingsFile E) = Decoded conf err →
  rangeOrder (Main conf) orderMain →
  rangeOrder (Additional conf) orderAdditional →
  parseMappingsRuns E lg
    (Returns (resolved orderMain orderAdditional, conf))
    (lg ++ openLog E ++ decodeLog err
        ++ conflictLog orderMain ++ conflictLog orderAdditional).
Proof.
  intros Hdec Pm Pa. exists orderMain, orderAdditional. split.
  - intros c e Heq. rewrite Hdec in Heq. by simplify_eq.
  - rewrite parseMappingsFunc_spec. by rewrite Hdec.
Qed.

Lemma visitLast_rangeOrder (m : tagMappings) k v :
  m !! k = Some v → rangeOrder m (visitLast m k v).
Proof.
  intros Hk. unfold rangeOrder, visitLast.
  rewrite <- (map_to_list_delete m k v Hk). symmetry. apply Permutation_cons_append.
Qed.

Lemma insertAll_visitLast (m n : tagMappings) k v :
  insertAll (visitLast m k v) n !! TagName_ToLower k = Some (storedConf v).
Proof. unfold visitLast. rewrite insertAll_snoc. simpl. apply lookup_insert_eq. Qed.

Lemma twinDoc_raw k v :
  ToLower "A" = "a" → ToLower "a" = "a" →
  rawEntry twinDoc k v → TagName_ToLower k = "a" ∧ storedConf v = zeroTagConf.
Proof.
  intros HA Ha [Hr|Hr]; simpl in Hr.
  - apply lookup_insert_Some in Hr as [[<- <-]|[_ Hr]]; [by split|].
    apply lookup_insert_Some in Hr as [[<- <-]|[_ Hr]]; [by split|].
    by rewrite lookup_empty in Hr.
  - by rewrite lookup_empty in Hr.
Qed.

(** Whatever the lower-casing function does elsewhere, if it sends "A" and
    "a" to "a" every walk over [twinDoc] builds the same one-entry map. *)
Lemma twinDoc_resolved orderMain orderAdditional :
  ToLower "A" = "a" → ToLower "a" = "a" →
  rangeOrder (Main twinDoc) orderMain →
  rangeOrder (Additional twinDoc) orderAdditional →
  resolved orderMain orderAdditional = {["a" := zeroTagConf]}.
Proof.
  intros HA Ha Pm Pa. apply map_eq. intros k.
  destruct (resolved orderMain orderAdditional !! k) as [w|] eqn:Hw.
  - destruct (resolved_from_raw twinDoc _ _ _ _ Pm Pa Hw) as (k0 & v0 & Hr & <- & ->).
    destruct (twinDoc_raw k0 v0 HA Ha Hr) as [-> ->]. by rewrite lookup_singleton_eq.
  - destruct (decide (k = "a")) as [->|Hne].
    + assert (Hraw : rawEntry twinDoc "a" zeroTagConf) by (left; reflexivity).
      destruct (resolved_has_key twinDoc _ _ _ _ Pm Pa Hraw) as [w Hsome].
      unfold TagName_ToLower in Hsome. rewrite Ha in Hsome.
      assert (Hsome' : resolved orderMain orderAdditional !! "a" = Some w)
        by exact Hsome.
      congruence.
    + by rewrite lookup_singleton_ne.
Qed.

(** C10 (as amended; for every lower-casing function): when the keys of
    each tier have pairwise distinct
    lower-cased forms, any two runs of the pipeline on the document return
    the same resolved mapping.  When a tier holds two distinct keys with
    the same lower-cased form whose entries are stored differently, and no
    later tier writes that key, there are two runs on the same document
    that return different resolved mappings: the entry iterated last
    wins. *)
Theorem order_dependence E conf err :
  yaml_Decode E (mappingsFile E) = Decoded conf err →
  (lowerDistinct (Main conf) → lowerDistinct (Additional conf) →
   ∀ lg1 lg2 n1 n2 c1 c2 lg1' lg2',
     parseMappingsRuns E lg1 (Returns (n1, c1)) lg1' →
     parseMappingsRuns E lg2 (Returns (n2, c2)) lg2' →
     n1 = n2)
  ∧ (∀ k1 v1 k2 v2,
       storedConf v1 ≠ storedConf v2 →
       collides (Additional conf) k1 v1 k2 v2
       ∨ (collides (Main conf) k1 v1 k2 v2 ∧
          ∀ k, is_Some (Additional conf !! k) →
               TagName_ToLower k ≠ TagName_ToLower k1) →
       ∃ n1 n2 lg1' lg2',
         parseMappingsRuns E [] (Returns (n1, conf)) lg1' ∧
         parseMappingsRuns E [] (Returns (n2, conf)) lg2' ∧
         n1 !! TagName_ToLower k1 = Some (storedConf v1) ∧
         n2 !! TagName_ToLower k1 = Some (storedConf v2) ∧
         n1 ≠ n2).
Proof.
  intros Hdec. split.
  - intros Hm Ha lg1 lg2 n1 n2 c1 c2 lg1' lg2' Hrun1 Hrun2.
    apply parseMappingsRuns_Returns in Hrun1
      as (e1 & om1 & oa1 & Hd1 & Pm1 & Pa1 & -> & _).
    apply parseMappingsRuns_Returns in Hrun2
      as (e2 & om2 & oa2 & Hd2 & Pm2 & Pa2 & -> & _).
    rewrite Hdec in Hd1, Hd2.
    injection Hd1 as <- <-. injection Hd2 as <- <-.
    rewrite (resolved_normalize conf om1 oa1), (resolved_normalize conf om2 oa2);
      auto using lowerDistinct_NoDup.
  - intros k1 v1 k2 v2 Hdiff Hcol.
    assert (Hfinish : ∀ n1 n2 : tagMappings,
              n1 !! TagName_ToLower k1 = Some (storedConf v1) →
              n2 !! TagName_ToLower k1 = Some (storedConf v2) → n1 ≠ n2).
    { intros n1 n2 H1 H2 ->. rewrite H1 in H2. apply Hdiff. congruence. }
    destruct Hcol as [(H1 & H2 & Hne & Hlow)|[(H1 & H2 & Hne & Hlow) Hfree]].
    + pose (om := map_to_list (Main conf)).
      assert (Pm : rangeOrder (Main conf) om) by by unfold rangeOrder.
      pose proof (visitLast_rangeOrder (Additional conf) k1 v1 H1) as Pa1.
      pose proof (visitLast_rangeOrder (Additional conf) k2 v2 H2) as Pa2.
      assert (L1 : resolved om (visitLast (Additional conf) k1 v1)
                   !! TagName_ToLower k1 = Some (storedConf v1))
        by apply insertAll_visitLast.
      assert (L2 : resolved om (visitLast (Additional conf) k2 v2)
                   !! TagName_ToLower k1 = Some (storedConf v2))
        by (rewrite Hlow; apply insertAll_visitLast).
      eexists _, _, _, _.
      split; [exact (parseMappingsRuns_orders E [] conf err _ _ Hdec Pm Pa1)|].
      split; [exact (parseMappingsRuns_orders E [] conf err _ _ Hdec Pm Pa2)|].
      split; [exact L1|]. split; [exact L2|]. by apply Hfinish.
    + pose (oa := map_to_list (Additional conf)).
      assert (Pa : rangeOrder (Additional conf) oa) by by unfold rangeOrder.
      pose proof (visitLast_rangeOrder (Main conf) k1 v1 H1) as Pm1.
      pose proof (visitLast_rangeOrder (Main conf) k2 v2 H2) as Pm2.
      assert (Hother : ∀ kv, kv ∈ oa → TagName_ToLower kv.1 ≠ TagName_ToLower k1).
      { intros [k v] Hin. apply elem_of_map_to_list in Hin.
        apply Hfree. by eexists. }
      assert (L1 : resolved (visitLast (Main conf) k1 v1) oa
                   !! TagName_ToLower k1 = Some (storedConf v1)).
      { unfold resolved. rewrite insertAll_lookup_other by done.
        apply insertAll_visitLast. }
      assert (L2 : resolved (visitLast (Main conf) k2 v2) oa
                   !! TagName_ToLower k1 = Some (storedConf v2)).
      { unfold resolved. rewrite insertAll_lookup_other by done.
        rewrite Hlow. apply insertAll_visitLast. }
      eexists _, _, _, _.
      split; [exact (parseMappingsRuns_orders E [] conf err _ _ Hdec Pm1 Pa)|].
      split; [exact (parseMappingsRuns_orders E [] conf err _ _ Hdec Pm2 Pa)|].
      split; [exact L1|]. split; [exact L2|]. by apply Hfinish.
Qed.

(** ** Diagnostics of the normalizer *)

Lemma elem_of_conflictLog order e :
  e ∈ conflictLog order ↔
  ∃ k v, (k, v) ∈ order ∧ splitTypeConflict v = true ∧
         e = ErrorSplitType k (Split v) (Type_ v).
Proof.
  unfold conflictLog. rewrite list_elem_of_In, in_flat_map. split.
  - intros ([k v] & Hin & He). apply list_elem_of_In in Hin. simpl in He.
    destruct (splitTypeConflict v) eqn:Hc; [|done].
    destruct He as [<-|[]]. by exists k, v.
  - intros (k & v & Hin & Hc & ->). exists (k, v).
    split; [by apply list_elem_of_In|]. simpl. rewrite Hc. by left.
Qed.

Lemma length_conflictLog order :
  length (conflictLog order) = length (filter conflicting order).
Proof.
  induction order as [|[k v] order IH]; [done|].
  unfold conflictLog in *. simpl flat_map. rewrite length_app, IH.
  destruct (splitTypeConflict v) eqn:Hc; simpl.
  - by rewrite filter_cons_True.
  - rewrite filter_cons_False; [done|]. unfold conflicting. simpl. by rewrite Hc.
Qed.

Lemma length_conflictLog_rangeOrder (m : tagMappings) order :
  rangeOrder m order →
  length (conflictLog order) = length (filter conflicting (map_to_list m)).
Proof. intros Hp. rewrite length_conflictLog. by rewrite Hp. Qed.

(** X1: when the document opens and decodes without error, the errors
    logged over any sequence of accessor calls are exactly the split/type
    diagnostics of the raw entries that declare a non-nil split beside a
    non-empty type, each with the key as written in the document and the
    raw split and type; there is one per such entry of each tier, also for
    a main-tier entry that the additional tier then replaces. *)
Theorem diagnostics_one_per_conflict E f conf tr p' :
  FS_Open E "mappings.yaml" = Opened f →
  yaml_Decode E (Some f) = Decoded conf None →
  execution E processStart tr p' →
  tr ≠ [] →
  (∀ e, e ∈ errorLog p' ↔
        ∃ k v, rawEntry conf k v ∧ splitTypeConflict v = true ∧
               e = ErrorSplitType k (Split v) (Type_ v)) ∧
  length (errorLog p')
  = length (filter conflicting (map_to_list (Main conf)))
    + length (filter conflicting (map_to_list (Additional conf))).
Proof.
  intros Hopen Hdec Hex Hne.
  destruct (execution_fresh E processStart tr p' eq_refl Hex Hne)
    as (out & lg' & (om & oa & Hord & Hrun) & -> & _).
  assert (Hfile : mappingsFile E = Some f) by (unfold mappingsFile; by rewrite Hopen).
  rewrite parseMappingsFunc_spec in Hrun. rewrite Hfile in Hord, Hrun.
  rewrite Hdec in Hrun. destruct (Hord conf None Hdec) as [Pm Pa].
  unfold openLog in Hrun. rewrite Hopen in Hrun. simpl in Hrun.
  injection Hrun as <- <-. simpl. split.
  - intros e. rewrite elem_of_app, !elem_of_conflictLog. split.
    + intros [(k & v & Hin & H)|(k & v & Hin & H)]; exists k, v;
        (split; [|done]).
      * left. by apply (rangeOrder_elem_of (Main conf) om).
      * right. by apply (rangeOrder_elem_of (Additional conf) oa).
    + intros (k & v & [Hr|Hr] & H).
      * left. exists k, v. split; [|done].
        by apply (rangeOrder_elem_of (Main conf) om).
      * right. exists k, v. split; [|done].
        by apply (rangeOrder_elem_of (Additional conf) oa).
  - rewrite length_app.
    by rewrite (length_conflictLog_rangeOrder (Main conf) om),
               (length_conflictLog_rangeOrder (Additional conf) oa).
Qed.

(** ** Size of the resolved mapping *)

Lemma insertAll_size order (n : tagMappings) :
  (size (insertAll order n) ≤ size n + length order)%nat.
Proof.
  revert n. induction order as [|kv order IH]; intros n; simpl; [lia|].
  etrans; [apply IH|].
  destruct (n !! TagName_ToLower kv.1) as [w|] eqn:Hk.
  - rewrite map_size_insert_Some by done. lia.
  - rewrite map_size_insert_None by done. lia.
Qed.

Lemma rangeOrder_length (m : tagMappings) order :
  rangeOrder m order → length order = size m.
Proof. intros Hp. rewrite Hp. apply length_map_to_list. Qed.

(** X2: the keys of the map [mappings()] returns are exactly the
    lower-cased keys of the raw entries of the two tiers; the map has at
    most as many entries as the two tiers together, and it is empty
    exactly when both tiers are. *)
Theorem resolved_keys_and_size E tr p' m conf err :
  execution E processStart tr p' →
  (mappings, Returns (MappingsValue m)) ∈ tr →
  yaml_Decode E (mappingsFile E) = Decoded conf err →
  (∀ k, is_Some (m !! k) ↔ ∃ k0 v0, rawEntry conf k0 v0 ∧ TagName_ToLower k0 = k) ∧
  (size m ≤ size (Main conf) + size (Additional conf))%nat ∧
  (m = ∅ ↔ Main conf = ∅ ∧ Additional conf = ∅).
Proof.
  intros Hex Hin Hdec.
  destruct (execution_decoded E tr p' m conf err Hex Hin Hdec)
    as (om & oa & Pm & Pa & ->).
  assert (Hkeys : ∀ k, is_Some (resolved om oa !! k) ↔
            ∃ k0 v0, rawEntry conf k0 v0 ∧ TagName_ToLower k0 = k).
  { intros k. split.
    - intros [w Hw].
      destruct (resolved_from_raw conf om oa k w Pm Pa Hw) as (k0 & v0 & Hr & Hk & _).
      by exists k0, v0.
    - intros (k0 & v0 & Hr & <-). by apply (resolved_has_key conf om oa k0 v0). }
  split; [exact Hkeys|]. split.
  - unfold resolved. etrans; [apply insertAll_size|].
    rewrite (rangeOrder_length (Additional conf) oa Pa).
    pose proof (insertAll_size om ∅) as Hs. rewrite map_size_empty in Hs.
    rewrite (rangeOrder_length (Main conf) om Pm) in Hs. lia.
  - split.
    + intros Hempty. split; apply map_empty; intros k;
        destruct (_ !! k) as [v|] eqn:Hk; try done;
        exfalso;
        (assert (Hsome : is_Some (resolved om oa !! TagName_ToLower k));
         [apply Hkeys; exists k, v; split; [|done]|
          rewrite Hempty, lookup_empty in Hsome; by destruct Hsome]).
      * by left.
      * by right.
    + intros [HM HA]. apply map_empty. intros k.
      destruct (resolved om oa !! k) as [w|] eqn:Hw; [|done].
      destruct (proj1 (Hkeys k)) as (k0 & v0 & [Hr|Hr] & _); [by eexists| |].
      * by rewrite HM, lookup_empty in Hr.
      * by rewrite HA, lookup_empty in Hr.
Qed.

(** ** Normalizing twice *)

Lemma lowerAliases_spec (a : slice) :
  lowerAliases a
  = match elems a with
    | [] => None
    | l => Some (ToLower <$> l)
    end.
Proof.
  unfold lowerAliases.
  assert (Hloop : ∀ l acc, l ≠ [] →
    fold_left (fun aliases val => append aliases (ToLower val)) l acc
    = Some (elems acc ++ (ToLower <$> l))).
  { induction l as [|x l IH]; intros acc Hne; [done|].
    simpl. destruct l as [|y l].
    - done.
    - rewrite IH by done. unfold append at 1. simpl.
      by rewrite <- app_assoc. }
  destruct (elems a) as [|x l] eqn:Ha; [done|].
  by rewrite Hloop.
Qed.

Lemma storedConf_no_conflict v : splitTypeConflict (storedConf v) = false.
Proof.
  destruct (splitTypeConflict (storedConf v)) eqn:Hc; [|done].
  apply splitTypeConflict_true in Hc as [Hs Ht]. simpl in Hs, Ht.
  destruct (splitTypeConflict v) eqn:Hv; [done|].
  assert (splitTypeConflict v = true) by by apply splitTypeConflict_true.
  congruence.
Qed.

Lemma insertAll_fixpoint (m : tagMappings) order :
  (∀ k w, m !! k = Some w → TagName_ToLower k = k ∧ storedConf w = w) →
  rangeOrder m order →
  insertAll order ∅ = m ∧ conflictLog order = [].
Proof.
  intros Hfix Hperm.
  assert (Hin : ∀ k w, (k, w) ∈ order ↔ m !! k = Some w).
  { intros k w. by apply rangeOrder_elem_of. }
  assert (Hkeys : (TagName_ToLower ∘ fst) <$> order = fst <$> order).
  { apply list_fmap_ext. intros i [k w] Hi. simpl.
    apply list_elem_of_lookup_2, Hin, Hfix in Hi. by destruct Hi. }
  assert (Hnd : NoDup ((TagName_ToLower ∘ fst) <$> order)).
  { rewrite Hkeys, Hperm. apply NoDup_fst_map_to_list. }
  split.
  - apply map_eq. intros k. destruct (m !! k) as [w|] eqn:Hk.
    + destruct (Hfix k w Hk) as [Hlow Hst].
      rewrite <- Hlow at 1. rewrite <- Hst.
      apply insertAll_lookup_NoDup; [done|by apply Hin].
    + rewrite insertAll_lookup_other; [done|].
      intros [k0 w0] Hkv Heq. simpl in Heq. apply Hin in Hkv.
      destruct (Hfix k0 w0 Hkv) as [Hlow _].
      rewrite Hlow in Heq. subst k0.
      assert (Hboth : Some w0 = None) by (etrans; [symmetry; exact Hkv|exact Hk]).
      discriminate Hboth.
  - destruct (conflictLog order) as [|e l] eqn:Hlog; [done|].
    assert (He : e ∈ conflictLog order) by (rewrite Hlog; left).
    apply elem_of_conflictLog in He as (k & v & Hkv & Hc & _).
    apply Hin, Hfix in Hkv as [_ Hst].
    rewrite <- Hst, storedConf_no_conflict in Hc. discriminate Hc.
Qed.

(** ** Aliases *)

(** X4: the aliases of a resolved entry are the aliases of the raw entry
    it was made from, lower-cased one by one: same number, same order,
    duplicates kept.  The resolved alias slice is nil exactly when the raw
    entry has no alias. *)
Theorem aliases_lowered_in_order E tr p' m conf err k w :
  execution E processStart tr p' →
  (mappings, Returns (MappingsValue m)) ∈ tr →
  yaml_Decode E (mappingsFile E) = Decoded conf err →
  m !! k = Some w →
  ∃ k0 v0,
    rawEntry conf k0 v0 ∧ TagName_ToLower k0 = k ∧
    elems (Aliases w) = ToLower <$> elems (Aliases v0) ∧
    length (elems (Aliases w)) = length (elems (Aliases v0)) ∧
    (Aliases w = None ↔ elems (Aliases v0) = []).
Proof.
  intros Hex Hin Hdec Hw.
  destruct (execution_decoded E tr p' m conf err Hex Hin Hdec)
    as (om & oa & Pm & Pa & ->).
  destruct (resolved_from_raw conf om oa k w Pm Pa Hw) as (k0 & v0 & Hr & Hk & ->).
  exists k0, v0. split; [done|]. split; [done|]. simpl.
  split; [apply elems_lowerAliases|].
  split; [by rewrite elems_lowerAliases, length_fmap|].
  rewrite lowerAliases_spec. by destruct (elems (Aliases v0)).
Qed.

(** ** Lower-casing twice *)

Section Idempotent.

(** Lower-casing a lower-cased string changes nothing, as is the case for
    Go's [strings.ToLower]. *)
Hypothesis ToLower_idem : ∀ s, ToLower (ToLower s) = ToLower s.

Lemma isLower_ToLower (s : string) : isLower (ToLower s).
Proof. apply ToLower_idem. Qed.

Lemma lowerAliases_lower (a : slice) : Forall isLower (elems (lowerAliases a)).
Proof.
  rewrite elems_lowerAliases. apply Forall_forall. intros s Hs.
  apply list_elem_of_fmap in Hs as (x & -> & _). apply isLower_ToLower.
Qed.

(** C5: every key of the map [mappings()] returns is lower-case, equal to
    its own lower-cased form, and so is every alias of every entry of it.
    This rests on one property of the lower-casing function, which Go's
    [strings.ToLower] has: applied twice it gives what it gives applied
    once. *)
Theorem resolved_lower_case E tr p' m k w :
  execution E processStart tr p' →
  (mappings, Returns (MappingsValue m)) ∈ tr →
  m !! k = Some w →
  isLower k ∧ Forall isLower (elems (Aliases w)).
Proof.
  intros Hex Hin Hw.
  destruct (execution_mappings E tr p' m Hex Hin)
    as (conf & err & om & oa & _ & Pm & Pa & ->).
  destruct (resolved_from_raw conf om oa k w Pm Pa Hw) as (k0 & v0 & _ & <- & ->).
  split; [apply isLower_ToLower|apply lowerAliases_lower].
Qed.

Lemma lowerAliases_idem (a : slice) :
  lowerAliases (lowerAliases a) = lowerAliases a.
Proof.
  rewrite (lowerAliases_spec (lowerAliases a)), elems_lowerAliases.
  rewrite (lowerAliases_spec a).
  destruct (elems a) as [|x l]; [done|].
  rewrite !fmap_cons. f_equal. f_equal; [apply ToLower_idem|].
  rewrite <- list_fmap_compose. apply list_fmap_ext.
  intros i y _. apply ToLower_idem.
Qed.

Lemma storedConf_idem v : storedConf (storedConf v) = storedConf v.
Proof.
  unfold storedConf at 1. rewrite storedConf_no_conflict.
  simpl. by rewrite lowerAliases_idem.
Qed.

(** X3: normalizing is idempotent when lower-casing is.  A document whose
    main tier is a map that [mappings()] returned, and which holds nothing
    else, resolves to that same map, and nothing is logged. *)
Theorem normalization_idempotent E tr p' m tr2 p2 :
  execution E processStart tr p' →
  (mappings, Returns (MappingsValue m)) ∈ tr →
  execution (envOf (mainOnly m)) processStart tr2 p2 →
  tr2 ≠ [] →
  errorLog p2 = [] ∧
  ∀ r, (mappings, r) ∈ tr2 → r = Returns (MappingsValue m).
Proof.
  intros Hex Hin Hex2 Hne.
  destruct (execution_mappings E tr p' m Hex Hin)
    as (conf & err & om & oa & _ & Pm & Pa & ->).
  assert (Hfix : ∀ k w, resolved om oa !! k = Some w →
                        TagName_ToLower k = k ∧ storedConf w = w).
  { intros k w Hw.
    destruct (resolved_from_raw conf om oa k w Pm Pa Hw) as (k0 & v0 & _ & <- & ->).
    split; [apply ToLower_idem|apply storedConf_idem]. }
  destruct (execution_fresh _ processStart tr2 p2 eq_refl Hex2 Hne)
    as (out & lg' & (om' & oa' & Hord & Hrun) & -> & Hall).
  rewrite parseMappingsFunc_spec in Hrun. simpl in Hrun, Hord.
  destruct (Hord (mainOnly (resolved om oa)) None eq_refl) as [Pm' Pa'].
  simpl in Pm', Pa'. apply rangeOrder_empty in Pa' as ->.
  destruct (insertAll_fixpoint (resolved om oa) om' Hfix Pm') as [Hmap Hlog].
  injection Hrun as <- <-. simpl. rewrite Hlog. split; [done|].
  intros r Hr. rewrite (Hall mappings r Hr). simpl.
  unfold resolved at 1. simpl. by rewrite Hmap.
Qed.

End Idempotent.

End Resolver.

(** * The examples

    The documents of the examples are ASCII: on them Go's
    [strings.ToLower] is the byte map [strings.ToLowerASCII], which takes
    the place of the lower-casing function here. *)

Lemma lowerByte_idem (c : ascii) :
  strings.lowerByte (strings.lowerByte c) = strings.lowerByte c.
Proof. destruct c as [[] [] [] [] [] [] [] []]; reflexivity. Qed.

Lemma ToLowerASCII_idem (s : string) :
  strings.ToLowerASCII (strings.ToLowerASCII s) = strings.ToLowerASCII s.
Proof.
  induction s as [|c s IH]; simpl; [done|].
  by rewrite lowerByte_idem, IH.
Qed.

Lemma example_normalize : normalize strings.ToLowerASCII exampleDoc = exampleResolved.
Proof. vm_compute. reflexivity. Qed.

Lemma example_NoDup :
  NoDup ((TagName_ToLower strings.ToLowerASCII ∘ fst) <$> map_to_list (Main
      exampleDoc)) ∧
  NoDup ((TagName_ToLower strings.ToLowerASCII ∘ fst) <$> map_to_list
      (Additional exampleDoc)).
Proof. split; apply NoDup_by_compute; vm_compute; reflexivity. Qed.

(** C1 (as amended): for the example document, whatever the iteration
    order, [mappings()] returns the two-entry map in which 'year' is the
    additional tier's entry alone, so its type is none ([""]), not
    integer, with aliases [date, releaseyear], maxLength 4 and a nil
    split, and 'genre' is {aliases [genres], type none, maxLength 0,
    split ["/", ";"]}; [rolesConf()] returns the roles entry as decoded,
    alias [ROLE] in upper case; [artistsConf()] returns the zero value. *)
Theorem example_end_to_end tr p' a r :
  execution strings.ToLowerASCII (envOf exampleDoc) processStart tr p' →
  (a, r) ∈ tr →
  r = Returns (match a with
               | mappings => MappingsValue exampleResolved
               | rolesConf => ConfValue exampleRoles
               | artistsConf => ConfValue zeroTagConf
               end).
Proof.
  intros Hex Hin. destruct example_NoDup as [Hm Ha].
  rewrite (execution_envOf strings.ToLowerASCII exampleDoc tr p' a r Hm Ha Hex Hin).
  rewrite example_normalize. by destruct a.
Qed.

Lemma example_execution :
  execution strings.ToLowerASCII (envOf exampleDoc) processStart exampleTrace
      exampleFinal.
Proof.
  apply (execution_of_run strings.ToLowerASCII (envOf exampleDoc)
           (Returns (exampleResolved, exampleDoc)) [] [mappings; rolesConf; mappings]).
  exists (map_to_list (Main exampleDoc)), (map_to_list (Additional exampleDoc)).
  split.
  - intros c err [= <- <-]. split; by unfold rangeOrder.
  - vm_compute. reflexivity.
Qed.

Lemma example_end_to_end_witness :
  execution strings.ToLowerASCII (envOf exampleDoc) processStart exampleTrace
      exampleFinal ∧
  (rolesConf, Returns (ConfValue exampleRoles)) ∈ exampleTrace ∧
  Returns (ConfValue exampleRoles)
  = Returns (match rolesConf with
             | mappings => MappingsValue exampleResolved
             | rolesConf => ConfValue exampleRoles
             | artistsConf => ConfValue zeroTagConf
             end).
Proof.
  assert (Hin : (rolesConf, Returns (ConfValue exampleRoles)) ∈ exampleTrace)
    by (right; left).
  split; [exact example_execution|]. split; [exact Hin|].
  exact (example_end_to_end exampleTrace exampleFinal rolesConf _
           example_execution Hin).
Defined.

(** C1 (as stated) fails on the code: no execution on the example document
    makes [mappings()] return a 'year' entry of type integer (the
    additional tier's entry, which declares no type, replaces the main
    tier's whole entry), and none makes [rolesConf()] return the alias in
    lower case (the roles entry is returned as decoded). *)
Lemma example_as_stated_fails :
  ¬ (∀ tr p' m,
       execution strings.ToLowerASCII (envOf exampleDoc) processStart tr p' →
       (mappings, Returns (MappingsValue m)) ∈ tr →
       ∃ y g, m !! "year" = Some y ∧ sameConf y claimedYear ∧
              m !! "genre" = Some g ∧ sameConf g exampleGenre)
  ∧ ¬ (∀ tr p' c,
       execution strings.ToLowerASCII (envOf exampleDoc) processStart tr p' →
       (rolesConf, Returns (ConfValue c)) ∈ tr →
       sameConf c claimedRoles).
Proof.
  split.
  - intros Hclaim.
    destruct (Hclaim exampleTrace exampleFinal exampleResolved example_execution)
      as (y & g & Hy & (_ & Hty & _) & _); [left|].
    vm_compute in Hy. injection Hy as <-. discriminate Hty.
  - intros Hclaim.
    destruct (Hclaim exampleTrace exampleFinal exampleRoles example_execution)
      as (Hal & _); [right; left|].
    discriminate Hal.
Qed.

Lemma shouted_execution :
  execution strings.ToLowerASCII (envOf shoutedDoc) processStart shoutedTrace
      shoutedFinal.
Proof.
  apply (execution_of_run strings.ToLowerASCII (envOf shoutedDoc)
           (Returns (∅, shoutedDoc)) [] [rolesConf; artistsConf]).
  exists [], []. split.
  - intros c err [= <- <-]. split; unfold rangeOrder; simpl;
      by rewrite map_to_list_empty.
  - reflexivity.
Qed.

(** C2 (as stated) fails on the code: for a document whose roles and
    artists entries are {aliases [ROLE], type integer, split ["/"]}, both
    accessors return that entry untouched, upper-case alias and split
    beside the type included. *)
Lemma subconfs_as_stated_fail :
  ¬ (∀ E tr p' c,
       execution strings.ToLowerASCII E processStart tr p' →
       (rolesConf, Returns (ConfValue c)) ∈ tr → normalizedConf strings.ToLowerASCII c)
  ∧ ¬ (∀ E tr p' c,
       execution strings.ToLowerASCII E processStart tr p' →
       (artistsConf, Returns (ConfValue c)) ∈ tr → normalizedConf
           strings.ToLowerASCII c).
Proof.
  split; intros Hclaim.
  - destruct (Hclaim (envOf shoutedDoc) shoutedTrace shoutedFinal shoutedConf
                shouted_execution) as [Hlow _]; [left|].
    apply Forall_cons in Hlow as [Hl _]. discriminate Hl.
  - destruct (Hclaim (envOf shoutedDoc) shoutedTrace shoutedFinal shoutedConf
                shouted_execution) as [_ Hconf]; [right; left|].
    apply Hconf. by split.
Qed.

Lemma subconfs_returned_as_decoded_witness :
  execution strings.ToLowerASCII (envOf shoutedDoc) processStart shoutedTrace
      shoutedFinal ∧
  rolesConf ≠ mappings ∧
  (rolesConf, Returns (ConfValue shoutedConf)) ∈ shoutedTrace ∧
  ∃ conf err,
    yaml_Decode (envOf shoutedDoc) (mappingsFile (envOf shoutedDoc))
    = Decoded conf err ∧
    shoutedConf = Roles conf.
Proof.
  assert (Hne : rolesConf ≠ mappings) by discriminate.
  assert (Hin : (rolesConf, Returns (ConfValue shoutedConf)) ∈ shoutedTrace)
    by left.
  split; [exact shouted_execution|]. split; [exact Hne|]. split; [exact Hin|].
  exact (subconfs_returned_as_decoded strings.ToLowerASCII (envOf shoutedDoc)
      shoutedTrace
           shoutedFinal rolesConf shoutedConf shouted_execution Hne Hin).
Defined.

(** C3 (as stated) fails on the code.  When the resource cannot be opened
    the pipeline logs the error and still runs the decoder on the nil
    file: if the decoder panics every accessor call panics,
        and if it
    returns an error a second error is logged.  When the decoder returns
    an error after filling part of the struct, the mapping is not empty. *)
Lemma load_failure_as_stated_fails :
  (loadFails envMissingPanics ∧ ¬ degradesToEmpty strings.ToLowerASCII
      envMissingPanics) ∧
  (loadFails envMissingError ∧ ¬ degradesToEmpty strings.ToLowerASCII envMissingError) ∧
  (loadFails envTypeError ∧ ¬ degradesToEmpty strings.ToLowerASCII envTypeError).
Proof.
  split; [|split].
  - split; [left; by eexists|]. intros Hclaim.
    destruct (Hclaim _ _ (canonical_execution strings.ToLowerASCII
        envMissingPanics mappings []))
      as [Hall _]; [done|].
    specialize (Hall mappings Panics). discriminate Hall. left.
  - split; [left; by eexists|]. intros Hclaim.
    destruct (Hclaim _ _ (canonical_execution strings.ToLowerASCII
        envMissingError mappings []))
      as [_ Hlen]; [done|].
    vm_compute in Hlen. discriminate Hlen.
  - split; [right; by eexists _, _|]. intros Hclaim.
    destruct (Hclaim _ _ (canonical_execution strings.ToLowerASCII envTypeError
        mappings []))
      as [Hall _]; [done|].
    pose (year := fun r : outcome value =>
            match r with
            | Returns (MappingsValue m) => m !! "year"
            | _ => None
            end).
    assert (Hyear : year (projectOutcome mappings (canonicalRun
        strings.ToLowerASCII envTypeError).1)
                    = year (Returns (emptyValue mappings))).
    { f_equal. apply Hall. left. }
    vm_compute in Hyear. discriminate Hyear.
Qed.

Lemma decode_failure_degrades_witness :
  FS_Open envSyntaxError "mappings.yaml" = Opened "main: [" ∧
  yaml_Decode envSyntaxError (Some "main: [")
  = Decoded zeroMappingsConf (Some "did not find expected node content") ∧
  execution strings.ToLowerASCII envSyntaxError processStart
    (canonicalTrace strings.ToLowerASCII envSyntaxError [mappings; rolesConf;
        artistsConf; mappings])
    (canonicalFinal strings.ToLowerASCII envSyntaxError) ∧
  canonicalTrace strings.ToLowerASCII envSyntaxError [mappings; rolesConf;
      artistsConf; mappings] ≠ [] ∧
  ((∀ a r,
      (a, r) ∈ canonicalTrace strings.ToLowerASCII envSyntaxError
                 [mappings; rolesConf; artistsConf; mappings] →
      r = Returns (emptyValue a)) ∧
   errorLog (canonicalFinal strings.ToLowerASCII envSyntaxError)
   = [ErrorDecoding "did not find expected node content"]).
Proof.
  assert (Hne : canonicalTrace strings.ToLowerASCII envSyntaxError
                  [mappings; rolesConf; artistsConf; mappings] ≠ [])
    by discriminate.
  split; [reflexivity|]. split; [reflexivity|].
  split; [apply canonical_execution|]. split; [exact Hne|].
  exact (proj2 (decode_failure_degrades strings.ToLowerASCII envSyntaxError "main: ["
                  zeroMappingsConf "did not find expected node content"
                  _ _ eq_refl eq_refl
                  (canonical_execution strings.ToLowerASCII envSyntaxError mappings
                     [rolesConf; artistsConf; mappings]) Hne) eq_refl).
Defined.

Lemma additional_replaces_main_witness :
  execution strings.ToLowerASCII (envOf exampleDoc) processStart
    [(mappings, Returns (MappingsValue (normalize strings.ToLowerASCII exampleDoc)))]
    (canonicalFinal strings.ToLowerASCII (envOf exampleDoc)) ∧
  Main exampleDoc !! "year"
  = Some {| Aliases := Some ["date"]; Type_ := TagTypeInteger;
            MaxLength := 0; Split := None |} ∧
  Additional exampleDoc !! "year" = Some exampleYear ∧
  MaxLength <$> normalize strings.ToLowerASCII exampleDoc !! "year" = Some 4%Z.
Proof.
  assert (Hin : (mappings, Returns (MappingsValue (normalize
      strings.ToLowerASCII exampleDoc)))
                ∈ [(mappings, Returns (MappingsValue (normalize
                    strings.ToLowerASCII exampleDoc)))])
    by left.
  assert (HM : Main exampleDoc !! "year"
               = Some {| Aliases := Some ["date"]; Type_ := TagTypeInteger;
                         MaxLength := 0; Split := None |})
    by (vm_compute; reflexivity).
  assert (HA : Additional exampleDoc !! "year" = Some exampleYear)
    by (vm_compute; reflexivity).
  assert (Huniq : ∀ k, is_Some (Additional exampleDoc !! k) →
            TagName_ToLower strings.ToLowerASCII k = TagName_ToLower
                strings.ToLowerASCII "year" → k = "year").
  { intros k [v Hk] _. simpl in Hk.
    destruct (decide (k = "year")) as [->|Hne]; [done|].
    by rewrite lookup_insert_ne in Hk. }
  split; [apply mappings_once|]. split; [exact HM|]. split; [exact HA|].
  exact (proj2 (proj2 (additional_replaces_main strings.ToLowerASCII (envOf
      exampleDoc) _ _
                         (normalize strings.ToLowerASCII exampleDoc) exampleDoc None
                         "year" _ "year" exampleYear
                         (mappings_once strings.ToLowerASCII exampleDoc) Hin
                             eq_refl HM HA eq_refl)
                  Huniq)).
Defined.

Lemma conflictDoc_date : normalize strings.ToLowerASCII conflictDoc !! "date" =
    Some resolvedDate.
Proof. vm_compute. reflexivity. Qed.

Lemma conflictDoc_mood : normalize strings.ToLowerASCII conflictDoc !! "mood" =
    Some resolvedMood.
Proof. vm_compute. reflexivity. Qed.

Lemma resolved_lower_case_witness :
  execution strings.ToLowerASCII (envOf conflictDoc) processStart
    [(mappings, Returns (MappingsValue (normalize strings.ToLowerASCII conflictDoc)))]
    (canonicalFinal strings.ToLowerASCII (envOf conflictDoc)) ∧
  normalize strings.ToLowerASCII conflictDoc !! "date" = Some resolvedDate ∧
  isLower strings.ToLowerASCII "date" ∧ Forall (isLower strings.ToLowerASCII)
      (elems (Aliases resolvedDate)).
Proof.
  split; [apply mappings_once|]. split; [exact conflictDoc_date|].
  exact (resolved_lower_case strings.ToLowerASCII ToLowerASCII_idem (envOf
      conflictDoc) _ _ (normalize strings.ToLowerASCII conflictDoc)
           "date" resolvedDate (mappings_once strings.ToLowerASCII conflictDoc)
           (mappings_once_elem strings.ToLowerASCII conflictDoc) conflictDoc_date).
Defined.

Lemma conflictDoc_sole_date : soleWriter strings.ToLowerASCII conflictDoc "Date"
    rawDate.
Proof.
  intros k1 v1 [Hr|Hr] Hk; simpl in Hr.
  - destruct (decide (k1 = "Date")) as [->|Hne].
    + rewrite lookup_insert_eq in Hr. by injection Hr as <-.
    + by rewrite lookup_insert_ne in Hr.
  - destruct (decide (k1 = "Mood")) as [->|Hne]; [discriminate Hk|].
    by rewrite lookup_insert_ne in Hr.
Qed.

Lemma conflictDoc_sole_mood : soleWriter strings.ToLowerASCII conflictDoc "Mood"
    rawMood.
Proof.
  intros k1 v1 [Hr|Hr] Hk; simpl in Hr.
  - destruct (decide (k1 = "Date")) as [->|Hne]; [discriminate Hk|].
    by rewrite lookup_insert_ne in Hr.
  - destruct (decide (k1 = "Mood")) as [->|Hne].
    + rewrite lookup_insert_eq in Hr. by injection Hr as <-.
    + by rewrite lookup_insert_ne in Hr.
Qed.

Lemma split_and_type_never_cooccur_witness :
  execution strings.ToLowerASCII (envOf conflictDoc) processStart
    [(mappings, Returns (MappingsValue (normalize strings.ToLowerASCII conflictDoc)))]
    (canonicalFinal strings.ToLowerASCII (envOf conflictDoc)) ∧
  rawEntry conflictDoc "Date" rawDate ∧
  soleWriter strings.ToLowerASCII conflictDoc "Date" rawDate ∧
  declaresBoth rawDate ∧
  ∃ w, normalize strings.ToLowerASCII conflictDoc !! TagName_ToLower
      strings.ToLowerASCII "Date" = Some w ∧
       Type_ w = TagTypeDate ∧ Split w = None.
Proof.
  assert (Hraw : rawEntry conflictDoc "Date" rawDate) by (left; reflexivity).
  assert (Hboth : declaresBoth rawDate) by (split; discriminate).
  split; [apply mappings_once|]. split; [exact Hraw|].
  split; [exact conflictDoc_sole_date|]. split; [exact Hboth|].
  exact (proj2 (proj2 (proj2
           (split_and_type_never_cooccur strings.ToLowerASCII (envOf conflictDoc) _ _
              (normalize strings.ToLowerASCII conflictDoc) conflictDoc None
              (mappings_once strings.ToLowerASCII conflictDoc)
                  (mappings_once_elem strings.ToLowerASCII conflictDoc)
              eq_refl)))
           "Date" rawDate Hraw conflictDoc_sole_date Hboth).
Defined.

Lemma type_never_validated_witness :
  execution strings.ToLowerASCII (envOf conflictDoc) processStart
    [(mappings, Returns (MappingsValue (normalize strings.ToLowerASCII conflictDoc)))]
    (canonicalFinal strings.ToLowerASCII (envOf conflictDoc)) ∧
  rawEntry conflictDoc "Mood" rawMood ∧
  soleWriter strings.ToLowerASCII conflictDoc "Mood" rawMood ∧
  ∃ w, normalize strings.ToLowerASCII conflictDoc !! TagName_ToLower
      strings.ToLowerASCII "Mood" = Some w ∧
       Type_ w = "banana" ∧
       (Type_ rawMood ≠ "" → Split rawMood ≠ None → Split w = None).
Proof.
  assert (Hraw : rawEntry conflictDoc "Mood" rawMood) by (right; reflexivity).
  split; [apply mappings_once|]. split; [exact Hraw|].
  split; [exact conflictDoc_sole_mood|].
  exact (proj1 (proj2
           (type_never_validated strings.ToLowerASCII (envOf conflictDoc) _ _
              (normalize strings.ToLowerASCII conflictDoc) conflictDoc None
              (mappings_once strings.ToLowerASCII conflictDoc)
                  (mappings_once_elem strings.ToLowerASCII conflictDoc)
              eq_refl))
           "Mood" rawMood Hraw conflictDoc_sole_mood).
Defined.

Lemma accessors_idempotent_witness :
  execution strings.ToLowerASCII (envOf exampleDoc) processStart
    (canonicalTrace strings.ToLowerASCII (envOf exampleDoc) [mappings; rolesConf])
    (canonicalFinal strings.ToLowerASCII (envOf exampleDoc)) ∧
  canonicalTrace strings.ToLowerASCII (envOf exampleDoc) [mappings; rolesConf] ≠ [] ∧
  execution strings.ToLowerASCII (envOf exampleDoc) (canonicalFinal
      strings.ToLowerASCII (envOf exampleDoc))
    (canonicalTrace strings.ToLowerASCII (envOf exampleDoc) [artistsConf; mappings])
    (canonicalFinal strings.ToLowerASCII (envOf exampleDoc)) ∧
  projectOutcome mappings (canonicalRun strings.ToLowerASCII (envOf exampleDoc)).1
  = projectOutcome mappings (canonicalRun strings.ToLowerASCII (envOf exampleDoc)).1 ∧
  canonicalFinal strings.ToLowerASCII (envOf exampleDoc) = canonicalFinal
      strings.ToLowerASCII (envOf exampleDoc).
Proof.
  assert (Hne : canonicalTrace strings.ToLowerASCII (envOf exampleDoc)
      [mappings; rolesConf] ≠ [])
    by discriminate.
  assert (Hin1 : (mappings, projectOutcome mappings (canonicalRun
      strings.ToLowerASCII (envOf exampleDoc)).1)
                 ∈ canonicalTrace strings.ToLowerASCII (envOf exampleDoc)
                     [mappings; rolesConf]
                   ++ canonicalTrace strings.ToLowerASCII (envOf exampleDoc)
                       [artistsConf; mappings])
    by left.
  assert (Hin2 : (mappings, projectOutcome mappings (canonicalRun
      strings.ToLowerASCII (envOf exampleDoc)).1)
                 ∈ canonicalTrace strings.ToLowerASCII (envOf exampleDoc)
                     [mappings; rolesConf]
                   ++ canonicalTrace strings.ToLowerASCII (envOf exampleDoc)
                       [artistsConf; mappings])
    by (do 3 right; left).
  split; [apply canonical_execution|]. split; [exact Hne|].
  split; [apply execution_settled|].
  exact (accessors_idempotent strings.ToLowerASCII (envOf exampleDoc) _ _ _ _
      mappings _ _
           (canonical_execution strings.ToLowerASCII (envOf exampleDoc) mappings
               [rolesConf]) Hne
           (execution_settled strings.ToLowerASCII (envOf exampleDoc) _ _
               [artistsConf; mappings])
           Hin1 Hin2).
Defined.

(** C10 (as stated) fails on the code in its second half: [twinDoc] holds
    the two distinct keys "A" and "a" in one tier, with the same
    lower-cased form, yet every run resolves it to the same one-entry map,
    because the two entries are stored alike.  (The keys are ASCII;
    [twinDoc_resolved] shows the same for every lower-casing function that
    sends "A" and "a" to "a".) *)
Lemma order_dependence_as_stated_fails :
  ¬ (∀ conf k1 v1 k2 v2,
       collides strings.ToLowerASCII (Main conf) k1 v1 k2 v2
       ∨ collides strings.ToLowerASCII (Additional conf) k1 v1 k2 v2 →
       ∃ orderMain1 orderAdditional1 orderMain2 orderAdditional2,
         rangeOrder (Main conf) orderMain1 ∧
         rangeOrder (Additional conf) orderAdditional1 ∧
         rangeOrder (Main conf) orderMain2 ∧
         rangeOrder (Additional conf) orderAdditional2 ∧
         resolved strings.ToLowerASCII orderMain1 orderAdditional1
         ≠ resolved strings.ToLowerASCII orderMain2 orderAdditional2).
Proof.
  intros Hclaim.
  destruct (Hclaim twinDoc "A" zeroTagConf "a" zeroTagConf)
    as (om1 & oa1 & om2 & oa2 & Pm1 & Pa1 & Pm2 & Pa2 & Hne).
  { left. by repeat split. }
  apply Hne. by rewrite !twinDoc_resolved.
Qed.

Lemma exampleDoc_lowerDistinct :
  lowerDistinct strings.ToLowerASCII (Main exampleDoc) ∧ lowerDistinct
      strings.ToLowerASCII (Additional exampleDoc).
Proof.
  split; intros k1 k2 [v1 H1] [v2 H2] Heq; simpl in H1, H2.
  - apply lookup_insert_Some in H1 as [[<- _]|[_ H1]];
      [|apply lookup_insert_Some in H1 as [[<- _]|[_ H1]];
        [|by rewrite lookup_empty in H1]];
      (apply lookup_insert_Some in H2 as [[<- _]|[_ H2]];
        [|apply lookup_insert_Some in H2 as [[<- _]|[_ H2]];
          [|by rewrite lookup_empty in H2]]);
      first [reflexivity|discriminate Heq].
  - apply lookup_insert_Some in H1 as [[<- _]|[_ H1]];
      [|by rewrite lookup_empty in H1].
    apply lookup_insert_Some in H2 as [[<- _]|[_ H2]];
      [done|by rewrite lookup_empty in H2].
Qed.

Lemma clashDoc_collides :
  collides strings.ToLowerASCII (Additional clashDoc) "Year" upperYear "year" lowerYear.
Proof. by repeat split. Qed.

Lemma order_dependence_witness :
  (∀ lg1 lg2 n1 n2 c1 c2 lg1' lg2',
     parseMappingsRuns strings.ToLowerASCII (envOf exampleDoc) lg1 (Returns (n1,
         c1)) lg1' →
     parseMappingsRuns strings.ToLowerASCII (envOf exampleDoc) lg2 (Returns (n2,
         c2)) lg2' →
     n1 = n2)
  ∧ (storedConf strings.ToLowerASCII upperYear ≠ storedConf strings.ToLowerASCII
      lowerYear ∧
     collides strings.ToLowerASCII (Additional clashDoc) "Year" upperYear "year"
         lowerYear ∧
     ∃ n1 n2 lg1' lg2',
       parseMappingsRuns strings.ToLowerASCII (envOf clashDoc) [] (Returns (n1,
           clashDoc)) lg1' ∧
       parseMappingsRuns strings.ToLowerASCII (envOf clashDoc) [] (Returns (n2,
           clashDoc)) lg2' ∧
       n1 !! TagName_ToLower strings.ToLowerASCII "Year" = Some (storedConf
           strings.ToLowerASCII upperYear) ∧
       n2 !! TagName_ToLower strings.ToLowerASCII "Year" = Some (storedConf
           strings.ToLowerASCII lowerYear) ∧
       n1 ≠ n2).
Proof.
  assert (Hdiff : storedConf strings.ToLowerASCII upperYear ≠ storedConf
      strings.ToLowerASCII lowerYear) by discriminate.
  split.
  - exact (proj1 (order_dependence strings.ToLowerASCII (envOf exampleDoc)
      exampleDoc None eq_refl)
             (proj1 exampleDoc_lowerDistinct) (proj2 exampleDoc_lowerDistinct)).
  - split; [exact Hdiff|]. split; [exact clashDoc_collides|].
    exact (proj2 (order_dependence strings.ToLowerASCII (envOf clashDoc)
        clashDoc None eq_refl)
             "Year" upperYear "year" lowerYear Hdiff
             (or_introl clashDoc_collides)).
Defined.

Lemma diagnostics_one_per_conflict_witness :
  FS_Open (envOf conflictDoc) "mappings.yaml" = Opened "" ∧
  yaml_Decode (envOf conflictDoc) (Some "") = Decoded conflictDoc None ∧
  execution strings.ToLowerASCII (envOf conflictDoc) processStart
    [(mappings, Returns (MappingsValue (normalize strings.ToLowerASCII conflictDoc)))]
    (canonicalFinal strings.ToLowerASCII (envOf conflictDoc)) ∧
  [(mappings, Returns (MappingsValue (normalize strings.ToLowerASCII
      conflictDoc)))] ≠ [] ∧
  length (errorLog (canonicalFinal strings.ToLowerASCII (envOf conflictDoc)))
  = length (filter conflicting (map_to_list (Main conflictDoc)))
    + length (filter conflicting (map_to_list (Additional conflictDoc))).
Proof.
  assert (Hne : [(mappings, Returns (MappingsValue (normalize
      strings.ToLowerASCII conflictDoc)))] ≠ [])
    by discriminate.
  split; [reflexivity|]. split; [reflexivity|].
  split; [apply mappings_once|]. split; [exact Hne|].
  exact (proj2 (diagnostics_one_per_conflict strings.ToLowerASCII (envOf
      conflictDoc) "" conflictDoc
                  _ _ eq_refl eq_refl (mappings_once strings.ToLowerASCII
                      conflictDoc) Hne)).
Defined.

Lemma resolved_keys_and_size_witness :
  execution strings.ToLowerASCII (envOf exampleDoc) processStart
    [(mappings, Returns (MappingsValue (normalize strings.ToLowerASCII exampleDoc)))]
    (canonicalFinal strings.ToLowerASCII (envOf exampleDoc)) ∧
  (size (normalize strings.ToLowerASCII exampleDoc)
   ≤ size (Main exampleDoc) + size (Additional exampleDoc))%nat.
Proof.
  split; [apply mappings_once|].
  exact (proj1 (proj2 (resolved_keys_and_size strings.ToLowerASCII (envOf
      exampleDoc) _ _
                         (normalize strings.ToLowerASCII exampleDoc) exampleDoc None
                         (mappings_once strings.ToLowerASCII exampleDoc)
                             (mappings_once_elem strings.ToLowerASCII
                             exampleDoc)
                         eq_refl))).
Defined.

Lemma normalization_idempotent_witness :
  execution strings.ToLowerASCII (envOf conflictDoc) processStart
    [(mappings, Returns (MappingsValue (normalize strings.ToLowerASCII conflictDoc)))]
    (canonicalFinal strings.ToLowerASCII (envOf conflictDoc)) ∧
  execution strings.ToLowerASCII (envOf (mainOnly (normalize
      strings.ToLowerASCII conflictDoc))) processStart
    (canonicalTrace strings.ToLowerASCII (envOf (mainOnly (normalize
        strings.ToLowerASCII conflictDoc))) [mappings])
    (canonicalFinal strings.ToLowerASCII (envOf (mainOnly (normalize
        strings.ToLowerASCII conflictDoc)))) ∧
  canonicalTrace strings.ToLowerASCII (envOf (mainOnly (normalize
      strings.ToLowerASCII conflictDoc))) [mappings] ≠ [] ∧
  errorLog (canonicalFinal strings.ToLowerASCII (envOf (mainOnly (normalize
      strings.ToLowerASCII conflictDoc)))) = [].
Proof.
  assert (Hne : canonicalTrace strings.ToLowerASCII (envOf (mainOnly (normalize
      strings.ToLowerASCII conflictDoc))) [mappings]
                ≠ []) by discriminate.
  split; [apply mappings_once|]. split; [apply canonical_execution|].
  split; [exact Hne|].
  exact (proj1 (normalization_idempotent strings.ToLowerASCII ToLowerASCII_idem
      (envOf conflictDoc) _ _
                  (normalize strings.ToLowerASCII conflictDoc) _ _
                  (mappings_once strings.ToLowerASCII conflictDoc)
                      (mappings_once_elem strings.ToLowerASCII conflictDoc)
                  (canonical_execution strings.ToLowerASCII (envOf (mainOnly
                      (normalize strings.ToLowerASCII conflictDoc)))
                     mappings []) Hne)).
Defined.

Lemma aliases_lowered_in_order_witness :
  execution strings.ToLowerASCII (envOf conflictDoc) processStart
    [(mappings, Returns (MappingsValue (normalize strings.ToLowerASCII conflictDoc)))]
    (canonicalFinal strings.ToLowerASCII (envOf conflictDoc)) ∧
  normalize strings.ToLowerASCII conflictDoc !! "date" = Some resolvedDate ∧
  ∃ k0 v0,
    rawEntry conflictDoc k0 v0 ∧ TagName_ToLower strings.ToLowerASCII k0 = "date" ∧
    elems (Aliases resolvedDate) = strings.ToLowerASCII <$> elems (Aliases v0) ∧
    length (elems (Aliases resolvedDate)) = length (elems (Aliases v0)) ∧
    (Aliases resolvedDate = None ↔ elems (Aliases v0) = []).
Proof.
  split; [apply mappings_once|]. split; [exact conflictDoc_date|].
  exact (aliases_lowered_in_order strings.ToLowerASCII (envOf conflictDoc) _ _
           (normalize strings.ToLowerASCII conflictDoc) conflictDoc None "date"
               resolvedDate
           (mappings_once strings.ToLowerASCII conflictDoc) (mappings_once_elem
               strings.ToLowerASCII conflictDoc)
           eq_refl conflictDoc_date).
Defined.

(** * Properties of package [metrics]

    ** Build settings *)

Lemma addSetting_fold_lookup l (b : gmap string string) k v :
  fold_left metrics.addSetting l b !! k = Some v →
  (∃ s, s ∈ l ∧ debug.Key s = k ∧ debug.Value s = v ∧ v ≠ "")
  ∨ b !! k = Some v.
Proof.
  revert b. induction l as [|s l IH]; intros b Hv; [by right|].
  simpl in Hv. apply IH in Hv as [(s' & Hin & Hs')|Hv].
  - left. exists s'. split; [by right|done].
  - unfold metrics.addSetting in Hv.
    destruct (String.eqb (debug.Value s) "") eqn:He; [by right|].
    apply lookup_insert_Some in Hv as [[<- <-]|[_ Hv]]; [|by right].
    left. exists s. split; [left|]. repeat split. by apply String.eqb_neq.
Qed.

Lemma addSetting_fold_other l (b : gmap string string) k :
  (∀ s, s ∈ l → debug.Key s = k → debug.Value s = "") →
  fold_left metrics.addSetting l b !! k = b !! k.
Proof.
  revert b. induction l as [|s l IH]; intros b Hskip; [done|].
  simpl. rewrite IH by (intros s' Hin; apply Hskip; by right).
  unfold metrics.addSetting.
  destruct (String.eqb (debug.Value s) "") eqn:He; [done|].
  apply lookup_insert_ne. intros Hk.
  apply String.eqb_neq in He. apply He, Hskip; [left|done].
Qed.

Lemma addSetting_fold_last l1 s l2 (b : gmap string string) :
  debug.Value s ≠ "" →
  (∀ s', s' ∈ l2 → debug.Key s' = debug.Key s → debug.Value s' = "") →
  fold_left metrics.addSetting (l1 ++ s :: l2) b !! debug.Key s
  = Some (debug.Value s).
Proof.
  intros Hv Hskip. rewrite fold_left_app. simpl.
  rewrite addSetting_fold_other by done.
  unfold metrics.addSetting at 1.
  apply String.eqb_neq in Hv. rewrite Hv. apply lookup_insert_eq.
Qed.

Lemma addSetting_fold_is_Some l (b : gmap string string) s :
  s ∈ l → debug.Value s ≠ "" →
  is_Some (fold_left metrics.addSetting l b !! debug.Key s).
Proof.
  intros Hin Hne. induction l as [|x l IH] using rev_ind.
  - by apply elem_of_nil in Hin.
  - rewrite fold_left_app. simpl. unfold metrics.addSetting at 1.
    apply elem_of_app in Hin as [Hin|Hin].
    + destruct (String.eqb (debug.Value x) ""); [by apply IH|].
      apply lookup_insert_is_Some'. right. by apply IH.
    + apply list_elem_of_singleton in Hin as <-.
      apply String.eqb_neq in Hne. rewrite Hne.
      rewrite lookup_insert_eq. by eexists.
Qed.

(** X5: [buildInfo] never records an empty value.  Every entry of the map
    it returns is the key and the value of a build setting, and a key is
    in the map exactly when some setting with that key has a non-empty
    value; when the build information cannot be read the map is empty. *)
Theorem buildInfo_settings R k :
  (∀ v, (metrics.buildInfo R).1 !! k = Some v →
        v ≠ "" ∧
        ∃ info s, metrics.debug_ReadBuildInfo R = Some info ∧
                  s ∈ debug.Settings info ∧
                  debug.Key s = k ∧ debug.Value s = v) ∧
  (is_Some ((metrics.buildInfo R).1 !! k) ↔
   ∃ info s, metrics.debug_ReadBuildInfo R = Some info ∧
             s ∈ debug.Settings info ∧
             debug.Key s = k ∧ debug.Value s ≠ "").
Proof.
  unfold metrics.buildInfo.
  destruct (metrics.debug_ReadBuildInfo R) as [info|]; simpl.
  - assert (Hfwd : ∀ v, fold_left metrics.addSetting (debug.Settings info) ∅ !! k
                        = Some v →
             v ≠ "" ∧ ∃ info0 s, Some info = Some info0 ∧
                        s ∈ debug.Settings info0 ∧
                        debug.Key s = k ∧ debug.Value s = v).
    { intros v Hv.
      apply addSetting_fold_lookup in Hv as [(s & Hin & Hk & Hs & Hne)|Hv].
      - split; [done|]. by exists info, s.
      - by rewrite lookup_empty in Hv. }
    split; [exact Hfwd|]. split.
    + intros [v Hv]. destruct (Hfwd v Hv) as (Hne & info0 & s & Hi & Hin & Hk & Hs).
      exists info0, s. repeat split; [done..|]. by rewrite Hs.
    + intros (info0 & s & [= <-] & Hin & <- & Hne).
      by apply addSetting_fold_is_Some.
  - split.
    + intros v Hv. by rewrite lookup_empty in Hv.
    + split.
      * intros [v Hv]. by rewrite lookup_empty in Hv.
      * by intros (info0 & s & [=] & _).
Qed.

(** X6: in [buildInfo] the last setting of a key with a non-empty value
    wins: later settings of that key with an empty value are skipped and
    do not erase it.  The version returned is the Go version of the build
    information. *)
Theorem buildInfo_last_setting_wins R info l1 s l2 :
  metrics.debug_ReadBuildInfo R = Some info →
  debug.Settings info = l1 ++ s :: l2 →
  debug.Value s ≠ "" →
  (∀ s', s' ∈ l2 → debug.Key s' = debug.Key s → debug.Value s' = "") →
  (metrics.buildInfo R).1 !! debug.Key s = Some (debug.Value s) ∧
  (metrics.buildInfo R).2 = debug.GoVersion info.
Proof.
  intros Hinfo Hsplit Hne Hskip. unfold metrics.buildInfo.
  rewrite Hinfo. simpl. rewrite Hsplit. split; [|done].
  by apply addSetting_fold_last.
Qed.

Lemma buildInfo_last_setting_wins_witness :
  metrics.debug_ReadBuildInfo exampleRuntime = Some exampleBuild ∧
  (metrics.buildInfo exampleRuntime).1 !! "vcs" = Some "git" ∧
  (metrics.buildInfo exampleRuntime).2 = "go1.23".
Proof.
  split; [reflexivity|].
  apply (buildInfo_last_setting_wins exampleRuntime exampleBuild []
           {| debug.Key := "vcs"; debug.Value := "git" |}
           [ {| debug.Key := "CGO_ENABLED"; debug.Value := "1" |};
             {| debug.Key := "vcs"; debug.Value := "" |};
             {| debug.Key := "-tags"; debug.Value := "" |} ]).
  - reflexivity.
  - reflexivity.
  - discriminate.
  - intros s' Hin Hk.
    apply elem_of_cons in Hin as [->|Hin]; [discriminate Hk|].
    apply elem_of_cons in Hin as [->|Hin]; [reflexivity|].
    apply elem_of_cons in Hin as [->|Hin]; [reflexivity|].
    by apply elem_of_nil in Hin.
Defined.

Lemma buildInfo_settings_witness :
  (metrics.buildInfo exampleRuntime).1 !! "vcs" = Some "git" ∧
  "git" ≠ "" ∧
  ∃ info s, metrics.debug_ReadBuildInfo exampleRuntime = Some info ∧
            s ∈ debug.Settings info ∧
            debug.Key s = "vcs" ∧ debug.Value s = "git".
Proof.
  assert (Hv : (metrics.buildInfo exampleRuntime).1 !! "vcs" = Some "git")
    by (vm_compute; reflexivity).
  split; [exact Hv|].
  exact (proj1 (buildInfo_settings exampleRuntime "vcs") "git" Hv).
Defined.

(** ** What the collected data shows of the configuration *)

Lemma nonEmpty_mask b : metrics.nonEmpty (mask b) = b.
Proof. by destruct b. Qed.

Lemma staticDataFunc_redact R c id :
  metrics.staticDataFunc (withServer R (redact c)) id
  = metrics.staticDataFunc (withServer R c) id.
Proof.
  unfold metrics.staticDataFunc, metrics.buildInfo, metrics.getFSInfo.
  simpl. rewrite !nonEmpty_mask. by rewrite andb_diag.
Qed.

(** X7: what [Collect] returns depends on the log file name, on the TLS
    certificate and key names, on the Spotify ID, on the auto-login user
    name and on the auto-created admin password only through whether each
    is set (for the TLS pair, whether both are): two configurations that
    agree once these are blotted out give the same result and the same
    state. *)
Theorem collect_hides_secrets S `{metrics.DataStore S} R c1 c2 (ds : S) inp st :
  metrics.staticDataOnce st = None →
  redact c1 = redact c2 →
  metrics.Collect (withServer R c1) ds inp st
  = metrics.Collect (withServer R c2) ds inp st.
Proof.
  intros Hfresh Hred.
  assert (Hstatic : metrics.staticDataFunc (withServer R c1) (metrics.insightsID st)
                    = metrics.staticDataFunc (withServer R c2) (metrics.insightsID st)).
  { rewrite <- (staticDataFunc_redact R c1), <- (staticDataFunc_redact R c2).
    by rewrite Hred. }
  unfold metrics.Collect, metrics.collectedData, metrics.staticData.
  rewrite Hfresh, Hstatic. reflexivity.
Qed.

Lemma collect_hides_secrets_witness :
  metrics.staticDataOnce metrics.stateStart = None ∧
  redact exampleServer = redact (redact exampleServer) ∧
  conf.DevAutoCreateAdminPassword exampleServer
  ≠ conf.DevAutoCreateAdminPassword (redact exampleServer) ∧
  metrics.Collect (withServer exampleRuntime exampleServer) ReadOnly
    {| metrics.sinceServerStart := 0; metrics.now := 0;
       metrics.libraryUpdateRuns := true |} metrics.stateStart
  = metrics.Collect (withServer exampleRuntime (redact exampleServer)) ReadOnly
      {| metrics.sinceServerStart := 0; metrics.now := 0;
         metrics.libraryUpdateRuns := true |} metrics.stateStart.
Proof.
  split; [reflexivity|]. split; [reflexivity|]. split; [discriminate|].
  exact (collect_hides_secrets readOnlyStore exampleRuntime exampleServer
           (redact exampleServer) ReadOnly _ metrics.stateStart
           eq_refl eq_refl).
Defined.

(** ** Uptime *)

(** X8: the uptime [Collect] reports is the time since server start in
    whole seconds, rounded down: the two integer divisions, by 10^6 in
    [Milliseconds] and by 1000, amount to one division of the nanoseconds
    by 10^9. *)
Theorem uptime_whole_seconds S `{metrics.DataStore S} R (ds : S) inp st :
  (0 ≤ metrics.sinceServerStart inp)%Z →
  let uptime := insights.Uptime (metrics.collectedData R ds inp st).1 in
  (uptime = metrics.sinceServerStart inp ÷ 1000000000 ∧
   uptime * 1000000000 ≤ metrics.sinceServerStart inp
   < (uptime + 1) * 1000000000)%Z.
Proof.
  intros Hpos uptime.
  assert (Hu : uptime
               = (metrics.Milliseconds (metrics.sinceServerStart inp) ÷ 1000)%Z).
  { unfold uptime, metrics.collectedData.
    by destruct (metrics.staticData R st). }
  unfold metrics.Milliseconds in Hu. rewrite Z.quot_quot in Hu by lia.
  change (1000000 * 1000)%Z with 1000000000%Z in Hu.
  split; [exact Hu|]. rewrite Hu.
  rewrite Z.quot_div_nonneg by lia.
  pose proof (Z.mul_div_le (metrics.sinceServerStart inp) 1000000000 ltac:(lia)).
  pose proof (Z.mul_succ_div_gt (metrics.sinceServerStart inp) 1000000000 ltac:(lia)).
  lia.
Qed.

Lemma uptime_whole_seconds_witness :
  (0 ≤ 1999999999)%Z ∧
  insights.Uptime
    (metrics.collectedData exampleRuntime ReadOnly
       {| metrics.sinceServerStart := 1999999999; metrics.now := 0;
          metrics.libraryUpdateRuns := false |} metrics.stateStart).1
  = (1999999999 ÷ 1000000000)%Z.
Proof.
  assert (Hpos : (0 ≤ 1999999999)%Z) by lia.
  split; [exact Hpos|].
  exact (proj1 (uptime_whole_seconds readOnlyStore exampleRuntime ReadOnly
                  {| metrics.sinceServerStart := 1999999999; metrics.now := 0;
                     metrics.libraryUpdateRuns := false |}
                  metrics.stateStart Hpos)).
Defined.

(** ** The once-only static data *)

Lemma NewInsights_cell S `{metrics.DataStore S} R (ds : S) u st :
  metrics.staticDataOnce (metrics.NewInsights R ds u st).2
  = metrics.staticDataOnce st.
Proof.
  unfold metrics.NewInsights.
  destruct (metrics.Property_Get ds _); [done|].
  by destruct (metrics.Property_Put ds _ _).
Qed.

Lemma collectedData_cell S `{metrics.DataStore S} R (ds : S) inp st :
  metrics.staticDataOnce (metrics.collectedData R ds inp st).2
  = Some (match metrics.staticDataOnce st with
          | Some d => d
          | None => metrics.staticDataFunc R (metrics.insightsID st)
          end).
Proof.
  unfold metrics.collectedData, metrics.staticData.
  by destruct (metrics.staticDataOnce st) eqn:Hc.
Qed.

Lemma Collect_cell S `{metrics.DataStore S} R (ds : S) inp st :
  metrics.staticDataOnce (metrics.Collect R ds inp st).2
  = metrics.staticDataOnce (metrics.collectedData R ds inp st).2.
Proof.
  unfold metrics.Collect.
  destruct (metrics.collectedData R ds inp st) as [d st'].
  by destruct (metrics.json_Marshal R d).
Qed.

Lemma collectedData_static S `{metrics.DataStore S} R (ds : S) inp st :
  staticPart (metrics.collectedData R ds inp st).1
  = staticPart (match metrics.staticDataOnce st with
                | Some d => d
                | None => metrics.staticDataFunc R (metrics.insightsID st)
                end).
Proof.
  unfold metrics.collectedData, metrics.staticData.
  by destruct (metrics.staticDataOnce st).
Qed.

Lemma collectedData_library S `{metrics.DataStore S} R (ds : S) inp st :
  insights.Library (metrics.collectedData R ds inp st).1
  = if metrics.libraryUpdateRuns inp then metrics.libraryCounts ds (metrics.now inp)
    else insights.Library (match metrics.staticDataOnce st with
                           | Some d => d
                           | None => metrics.staticDataFunc R (metrics.insightsID st)
                           end).
Proof.
  unfold metrics.collectedData, metrics.staticData.
  by destruct (metrics.staticDataOnce st).
Qed.

(** Once filled, the cell keeps its content. *)
Lemma evolves_cell R st st' d :
  evolves R st st' →
  metrics.staticDataOnce st = Some d →
  metrics.staticDataOnce st' = Some d.
Proof.
  intros Hev Hd. induction Hev as [|S DS ds u st' _ IH|S DS ds inp st' _ IH].
  - done.
  - by rewrite NewInsights_cell.
  - by rewrite Collect_cell, collectedData_cell, IH.
Qed.

(** From process start, the cell only ever holds what the function
    literal computed. *)
Lemma evolves_cell_origin R st d :
  evolves R metrics.stateStart st →
  metrics.staticDataOnce st = Some d →
  ∃ id, d = metrics.staticDataFunc R id.
Proof.
  intros Hev. revert d.
  induction Hev as [|S DS ds u st' _ IH|S DS ds inp st' _ IH]; intros d Hd.
  - done.
  - rewrite NewInsights_cell in Hd. by apply IH.
  - rewrite Collect_cell, collectedData_cell in Hd. injection Hd as <-.
    destruct (metrics.staticDataOnce st') as [d'|]; [by apply IH|by eexists].
Qed.

(** X9: in any state the process can reach, the library counts in the
    data [Collect] encodes are those the store returned in this very call
    when the rate limiter ran the update, and are all zero when it did
    not: the counts are written to the call's own copy of the static
    data, never to the cell. *)
Theorem library_counts_only_when_updated S `{metrics.DataStore S} R (ds : S) inp st :
  evolves R metrics.stateStart st →
  insights.Library (metrics.collectedData R ds inp st).1
  = if metrics.libraryUpdateRuns inp
    then metrics.libraryCounts ds (metrics.now inp)
    else insights.zeroLibrary.
Proof.
  intros Hev. rewrite collectedData_library.
  destruct (metrics.libraryUpdateRuns inp); [done|].
  destruct (metrics.staticDataOnce st) as [d|] eqn:Hd; [|done].
  by destruct (evolves_cell_origin R st d Hev Hd) as [id ->].
Qed.

(** X10: after a first [Collect], every later [Collect], whatever
    [NewInsights] and [Collect] calls come in between and on whatever
    stores, encodes the same insights ID, version, build, OS, file system
    and configuration data as the first one; a later change of the
    variable [insightsID] does not show. *)
Theorem static_part_fixed_by_first_collect S1 `{metrics.DataStore S1}
    S2 `{metrics.DataStore S2} R (ds1 : S1) inp1 st (ds2 : S2) inp2 st2 :
  evolves R (metrics.Collect R ds1 inp1 st).2 st2 →
  staticPart (metrics.collectedData R ds2 inp2 st2).1
  = staticPart (metrics.collectedData R ds1 inp1 st).1.
Proof.
  intros Hev. rewrite !collectedData_static.
  pose proof (Collect_cell S1 R ds1 inp1 st) as Hcell.
  rewrite collectedData_cell in Hcell.
  by rewrite (evolves_cell R _ st2 _ Hev Hcell).
Qed.

Lemma library_counts_only_when_updated_witness :
  evolves exampleRuntime metrics.stateStart
    (metrics.Collect exampleRuntime ReadOnly
       {| metrics.sinceServerStart := 0; metrics.now := 0;
          metrics.libraryUpdateRuns := true |} metrics.stateStart).2 ∧
  insights.Library_Tracks
    (insights.Library
       (metrics.collectedData exampleRuntime ReadOnly
          {| metrics.sinceServerStart := 0; metrics.now := 0;
             metrics.libraryUpdateRuns := true |} metrics.stateStart).1) = 7%Z ∧
  insights.Library
    (metrics.collectedData exampleRuntime ReadOnly
       {| metrics.sinceServerStart := 1000000000; metrics.now := 1000000000;
          metrics.libraryUpdateRuns := false |}
       (metrics.Collect exampleRuntime ReadOnly
          {| metrics.sinceServerStart := 0; metrics.now := 0;
             metrics.libraryUpdateRuns := true |} metrics.stateStart).2).1
  = insights.zeroLibrary.
Proof.
  assert (Hev : evolves exampleRuntime metrics.stateStart
    (metrics.Collect exampleRuntime ReadOnly
       {| metrics.sinceServerStart := 0; metrics.now := 0;
          metrics.libraryUpdateRuns := true |} metrics.stateStart).2)
    by (apply evolves_Collect, evolves_refl).
  split; [exact Hev|]. split; [reflexivity|].
  exact (library_counts_only_when_updated readOnlyStore exampleRuntime ReadOnly
           {| metrics.sinceServerStart := 1000000000; metrics.now := 1000000000;
              metrics.libraryUpdateRuns := false |} _ Hev).
Defined.

Lemma static_part_fixed_by_first_collect_witness :
  evolves exampleRuntime
    (metrics.Collect exampleRuntime ReadOnly
       {| metrics.sinceServerStart := 0; metrics.now := 0;
          metrics.libraryUpdateRuns := true |}
       (metrics.NewInsights exampleRuntime ReadOnly "first" metrics.stateStart).2).2
    (metrics.NewInsights exampleRuntime ReadOnly "second"
       (metrics.Collect exampleRuntime ReadOnly
          {| metrics.sinceServerStart := 0; metrics.now := 0;
             metrics.libraryUpdateRuns := true |}
          (metrics.NewInsights exampleRuntime ReadOnly "first"
             metrics.stateStart).2).2).2 ∧
  metrics.insightsID
    (metrics.NewInsights exampleRuntime ReadOnly "second"
       (metrics.Collect exampleRuntime ReadOnly
          {| metrics.sinceServerStart := 0; metrics.now := 0;
             metrics.libraryUpdateRuns := true |}
          (metrics.NewInsights exampleRuntime ReadOnly "first"
             metrics.stateStart).2).2).2 = "second" ∧
  staticPart
    (metrics.collectedData exampleRuntime ReadOnly
       {| metrics.sinceServerStart := 5; metrics.now := 5;
          metrics.libraryUpdateRuns := false |}
       (metrics.NewInsights exampleRuntime ReadOnly "second"
          (metrics.Collect exampleRuntime ReadOnly
             {| metrics.sinceServerStart := 0; metrics.now := 0;
                metrics.libraryUpdateRuns := true |}
             (metrics.NewInsights exampleRuntime ReadOnly "first"
                metrics.stateStart).2).2).2).1
  = staticPart
      (metrics.collectedData exampleRuntime ReadOnly
         {| metrics.sinceServerStart := 0; metrics.now := 0;
            metrics.libraryUpdateRuns := true |}
         (metrics.NewInsights exampleRuntime ReadOnly "first"
            metrics.stateStart).2).1.
Proof.
  assert (Hev : evolves exampleRuntime
    (metrics.Collect exampleRuntime ReadOnly
       {| metrics.sinceServerStart := 0; metrics.now := 0;
          metrics.libraryUpdateRuns := true |}
       (metrics.NewInsights exampleRuntime ReadOnly "first" metrics.stateStart).2).2
    (metrics.NewInsights exampleRuntime ReadOnly "second"
       (metrics.Collect exampleRuntime ReadOnly
          {| metrics.sinceServerStart := 0; metrics.now := 0;
             metrics.libraryUpdateRuns := true |}
          (metrics.NewInsights exampleRuntime ReadOnly "first"
             metrics.stateStart).2).2).2)
    by (apply evolves_NewInsights, evolves_refl).
  split; [exact Hev|]. split; [reflexivity|].
  exact (static_part_fixed_by_first_collect readOnlyStore readOnlyStore
           exampleRuntime ReadOnly _ _ ReadOnly
           {| metrics.sinceServerStart := 5; metrics.now := 5;
              metrics.libraryUpdateRuns := false |} _ Hev).
Defined.

(** ** The insights ID *)

(** X11: on a store where a [Put] that reports no error is read back by
    [Get], the insights ID survives a restart: when the first
    [NewInsights] found an ID or saved its fresh one, a second
    [NewInsights] on the resulting store sets the same ID, leaves the
    store as it is and traces nothing. *)
Theorem insights_id_survives_restart S `{metrics.DataStore S} R (ds : S)
    u1 u2 st1 st2 :
  putThenGet S →
  (metrics.Property_Get ds (metrics.consts_InsightsID R) = None →
   (metrics.Property_Put ds (metrics.consts_InsightsID R) u1).2 = true) →
  let first := metrics.NewInsights R ds u1 st1 in
  let second := metrics.NewInsights R first.1 u2 st2 in
  metrics.insightsID second.2 = metrics.insightsID first.2 ∧
  second.1 = first.1 ∧
  metrics.traces second.2 = metrics.traces st2.
Proof.
  intros Hlaw Hput first second. unfold second, first, metrics.NewInsights.
  destruct (metrics.Property_Get ds (metrics.consts_InsightsID R)) as [id|] eqn:Hget.
  - simpl. by rewrite Hget.
  - specialize (Hput eq_refl).
    destruct (metrics.Property_Put ds (metrics.consts_InsightsID R) u1)
      as [ds' ok] eqn:Hp.
    simpl in Hput. subst ok. simpl.
    by rewrite (Hlaw ds ds' _ u1 Hp).
Qed.

Lemma mapStore_putThenGet : putThenGet (gmap string string).
Proof. intros ds ds' k v [= <-]. apply lookup_insert_eq. Qed.

Lemma insights_id_survives_restart_witness :
  putThenGet (gmap string string) ∧
  metrics.insightsID
    (metrics.NewInsights exampleRuntime
       (metrics.NewInsights exampleRuntime (∅ : gmap string string)
          "first" metrics.stateStart).1
       "second" metrics.stateStart).2
  = metrics.insightsID
      (metrics.NewInsights exampleRuntime (∅ : gmap string string)
         "first" metrics.stateStart).2.
Proof.
  split; [exact mapStore_putThenGet|].
  exact (proj1 (insights_id_survives_restart (gmap string string) exampleRuntime
                  ∅ "first" "second" metrics.stateStart metrics.stateStart
                  mapStore_putThenGet (fun _ => eq_refl))).
Defined.

(** X12: when the store holds no ID and the fresh one cannot be saved,
    [NewInsights] still sets the fresh ID, after tracing both failures;
    if the store still holds no ID at the next [NewInsights], that call
    sets its own fresh ID. *)
Theorem insights_id_unsaved S `{metrics.DataStore S} R (ds : S) u st :
  metrics.Property_Get ds (metrics.consts_InsightsID R) = None →
  (metrics.Property_Put ds (metrics.consts_InsightsID R) u).2 = false →
  let first := metrics.NewInsights R ds u st in
  metrics.insightsID first.2 = u ∧
  metrics.traces first.2
  = metrics.traces st ++ [metrics.CouldNotGetID; metrics.CouldNotSaveID] ∧
  (metrics.Property_Get first.1 (metrics.consts_InsightsID R) = None →
   ∀ u2 st2,
     metrics.insightsID (metrics.NewInsights R first.1 u2 st2).2 = u2).
Proof.
  intros Hget Hput first. unfold first, metrics.NewInsights. rewrite Hget.
  destruct (metrics.Property_Put ds (metrics.consts_InsightsID R) u)
    as [ds' ok] eqn:Hp.
  simpl in Hput. subst ok. simpl. split; [done|].
  split; [by rewrite <- app_assoc|].
  intros Hget2 u2 st2. rewrite Hget2.
  by destruct (metrics.Property_Put ds' (metrics.consts_InsightsID R) u2).
Qed.

Lemma insights_id_unsaved_witness :
  metrics.Property_Get ReadOnly (metrics.consts_InsightsID exampleRuntime) = None ∧
  (metrics.Property_Put ReadOnly (metrics.consts_InsightsID exampleRuntime)
     "first").2 = false ∧
  metrics.insightsID
    (metrics.NewInsights exampleRuntime ReadOnly "first" metrics.stateStart).2
  = "first".
Proof.
  split; [reflexivity|]. split; [reflexivity|].
  exact (proj1 (insights_id_unsaved readOnlyStore exampleRuntime ReadOnly
                  "first" metrics.stateStart eq_refl eq_refl)).
Defined.
